(** * aiac configuration loading (libaiac/config.go)

    A shallow embedding of [LoadConfig], [replaceEnvVars] and
    [replaceEnvVar], together with the parts of the Go runtime and of the
    collaborating packages they run on:

    - [GoOs]    : [os.Expand], [os.ExpandEnv] and [os.Getenv];
    - [Toml]    : the structured-document decoder, seen through its contract;
    - [Libaiac] : the package itself.

    Go strings are byte sequences.  At function boundaries they are Rocq
    [string]s; where the Go code indexes or slices a string it is viewed as a
    [list ascii], so that [s[j]] is [s !! j] and [s[i:j]] is [slice s i j]. *)

From Stdlib Require Import Ascii String.
From stdpp Require Import base option list gmap strings.

Abbreviation bytes := (list ascii) (only parsing).

(** [s[lo:hi]] of Go, for [lo <= hi <= len(s)]. *)
Definition slice (s : bytes) (lo hi : nat) : bytes := take (hi - lo) (drop lo s).

Definition of_string (s : string) : bytes := list_ascii_of_string s.
Definition to_string (b : bytes) : string := string_of_list_ascii b.

(* ------------------------------------------------------------------ *)
(** ** Package os: environment expansion

    [replaceEnvVar] is [os.ExpandEnv].  The definitions below follow
    os/env.go of the Go standard library, function by function. *)
(* ------------------------------------------------------------------ *)

Module GoOs.

(** [isShellSpecialVar] reports whether the character identifies a special
    shell variable such as [$*]. *)
Definition isShellSpecialVar (c : ascii) : bool :=
  match c with
  | "*" | "#" | "$" | "@" | "!" | "?" | "-"
  | "0" | "1" | "2" | "3" | "4" | "5" | "6" | "7" | "8" | "9" => true
  | _ => false
  end%char.

(** [isAlphaNum] reports whether the byte is an ASCII letter, number, or
    underscore. *)
Definition isAlphaNum (c : ascii) : bool :=
  Ascii.eqb c "_"
  || Ascii.leb "0" c && Ascii.leb c "9"
  || Ascii.leb "a" c && Ascii.leb c "z"
  || Ascii.leb "A" c && Ascii.leb c "Z".

(** [for i := 1; i < len(s); i++ { if s[i] == '}' ... }] : the index of the
    first closing brace at or after index [i], where [rest = s[i:]]. *)
Fixpoint scanBrace (rest : bytes) (i : nat) : option nat :=
  match rest with
  | [] => None
  | c :: rest' => if Ascii.eqb c "}" then Some i else scanBrace rest' (S i)
  end.

(** [for i = 0; i < len(s) && isAlphaNum(s[i]); i++ {}] : the final [i]. *)
Fixpoint scanAlphaNum (s : bytes) : nat :=
  match s with
  | c :: s' => if isAlphaNum c then S (scanAlphaNum s') else 0
  | [] => 0
  end.

(** [getShellName] returns the name that begins the string and the number of
    bytes consumed to extract it.  If the name is enclosed in braces, it is
    part of a [${}] expansion and two more bytes are needed than the length
    of the name.  Go evaluates [s[0]] first, so the function is only called
    on a non-empty string ([Expand] guards the call with [j+1 < len(s)]); the
    empty case below is that unreachable one. *)
Definition getShellName (s : bytes) : bytes * nat :=
  match s with
  | [] => ([], 0)
  | c0 :: _ =>
    if Ascii.eqb c0 "{" then
      if bool_decide (2 < length s)
         && from_option isShellSpecialVar false (s !! 1)
         && bool_decide (s !! 2 = Some "}"%char)
      then (slice s 1 2, 3)
      else
        (* Scan to closing brace *)
        match scanBrace (drop 1 s) 1 with
        | Some i =>
          if bool_decide (i = 1) then ([], 2) (* Bad syntax; eat "${}" *)
          else (slice s 1 i, i + 1)
        | None => ([], 1) (* Bad syntax; eat "${" *)
        end
    else if isShellSpecialVar c0 then (slice s 0 1, 1)
    else
      (* Scan alphanumerics. *)
      let i := scanAlphaNum s in
      (take i s, i)
  end.

(** The loop of [Expand].  The state is the triple [(buf, i, j)] of the Go
    function; [buf = None] is the nil slice.  One unit of [fuel] is one
    evaluation of the loop guard [j < len(s)]; the state is returned when the
    guard fails (or when the fuel is gone: [Expand_loop_exits] shows that
    [length s] units always reach the failing guard). *)
Fixpoint Expand_loop (fuel : nat) (s : bytes) (mapping : string → string)
    (buf : option bytes) (i j : nat) : option bytes * nat * nat :=
  match fuel with
  | O => (buf, i, j)
  | S fuel =>
    if bool_decide (j < length s) then
      if bool_decide (s !! j = Some "$"%char) && bool_decide (j + 1 < length s) then
        let buf := default [] buf in
        let buf := buf ++ slice s i j in
        let '(name, w) := getShellName (drop (j + 1) s) in
        let buf :=
          if bool_decide (name = []) && bool_decide (0 < w) then
            (* Encountered invalid syntax; eat the characters. *)
            buf
          else if bool_decide (name = []) then
            (* Valid syntax, but $ was not followed by a name.
               Leave the dollar character untouched. *)
            buf ++ ["$"%char]
          else
            buf ++ of_string (mapping (to_string name)) in
        let j := j + w in
        let i := j + 1 in
        Expand_loop fuel s mapping (Some buf) i (j + 1)
      else Expand_loop fuel s mapping buf i (j + 1)
    else (buf, i, j)
  end.

(** [Expand] replaces [${var}] or [$var] in the string based on the mapping
    function. *)
Definition Expand (s : string) (mapping : string → string) : string :=
  let sb := of_string s in
  match Expand_loop (length sb) sb mapping None 0 0 with
  | (None, _, _) => s
  | (Some buf, i, _) => to_string (buf ++ drop i sb)
  end.

(** [Getenv] retrieves the value of the environment variable named by the
    key; the value is empty when the variable is not present.  The process
    environment [env] binds variable names to their values. *)
Definition Getenv (env : gmap string string) (key : string) : string :=
  default ""%string (env !! key).

(** [ExpandEnv] replaces [${var}] or [$var] in the string according to the
    values of the current environment variables. *)
Definition ExpandEnv (env : gmap string string) (s : string) : string :=
  Expand s (Getenv env).

End GoOs.

(* ------------------------------------------------------------------ *)
(** ** Go errors: [error] values, [fmt.Errorf] with [%w], [errors.Unwrap] *)
(* ------------------------------------------------------------------ *)

Module GoErrors.

Inductive error : Type :=
| errorString (s : string)                 (* an error of a collaborator *)
| wrapError (msg : string) (err : error).  (* built by [fmt.Errorf] with [%w] *)

Definition Error (e : error) : string :=
  match e with
  | errorString s => s
  | wrapError msg _ => msg
  end.

Definition Unwrap (e : error) : option error :=
  match e with
  | errorString _ => None
  | wrapError _ err => Some err
  end.

(** [fmt.Errorf(context + ": %w", err)]. *)
Definition Errorf_w (context : string) (err : error) : error :=
  wrapError (context +:+ ": " +:+ Error err) err.

#[global] Instance error_eq_dec : EqDecision error.
Proof. solve_decision. Defined.

End GoErrors.

(* ------------------------------------------------------------------ *)
(** ** Documents on disk, as the decoder sees them *)
(* ------------------------------------------------------------------ *)

Module Toml.
Import GoErrors.
#[local] Set Warnings "-register-all".

(** Modelled from the spec: the on-disk document of the structured-file
    decoder (github.com/BurntSushi/toml, not part of the sources), after
    parsing: a table of key/value entries in file order, whose values are
    strings, integers, booleans, arrays or tables. *)
Inductive value : Type :=
| VString (s : string)
| VInteger (n : Z)
| VBool (b : bool)
| VArray (vs : list value)
| VTable (entries : list (string * value)).

Abbreviation table := (list (string * value)) (only parsing).

(** Modelled from the spec: what the decoder makes of the bytes of a file.
    Either they do not form a document, and parsing reports [err], or they
    form the document [doc]. *)
Inductive file : Type :=
| Malformed (err : error)
| Document (doc : list (string * value)).

End Toml.

(* ------------------------------------------------------------------ *)
(** ** Package libaiac *)
(* ------------------------------------------------------------------ *)

Module Libaiac.
Import GoErrors.

(** BackendType is a const type used for identifying backends. *)
Definition BackendType : Type := string.

Definition BackendOpenAI : BackendType := "openai".
Definition BackendBedrock : BackendType := "bedrock".
Definition BackendOllama : BackendType := "ollama".

(** BackendConfig holds backend-specific configuration. *)
Record BackendConfig : Type := mkBackendConfig {
  Type_ : BackendType;
  AWSProfile : string;
  AWSRegion : string;
  APIKey : string;
  APIVersion : string;
  URL : string;
  DefaultModel : string;
  ExtraHeaders : gmap string string;
}.

(** Config holds the configuration for aiac. *)
Record Config : Type := mkConfig {
  Backends : gmap string BackendConfig;
  DefaultBackend : string;
}.

(** Zero values.  A nil map and an empty map read alike; both are [∅]. *)
Definition BackendConfig_zero : BackendConfig :=
  mkBackendConfig "" "" "" "" "" "" "" ∅.
Definition Config_zero : Config := mkConfig ∅ "".

(** Field assignments [x.F = v]. *)
Definition set_Type (v : BackendType) (b : BackendConfig) : BackendConfig :=
  mkBackendConfig v (AWSProfile b) (AWSRegion b) (APIKey b) (APIVersion b)
    (URL b) (DefaultModel b) (ExtraHeaders b).
Definition set_AWSProfile (v : string) (b : BackendConfig) : BackendConfig :=
  mkBackendConfig (Type_ b) v (AWSRegion b) (APIKey b) (APIVersion b)
    (URL b) (DefaultModel b) (ExtraHeaders b).
Definition set_AWSRegion (v : string) (b : BackendConfig) : BackendConfig :=
  mkBackendConfig (Type_ b) (AWSProfile b) v (APIKey b) (APIVersion b)
    (URL b) (DefaultModel b) (ExtraHeaders b).
Definition set_APIKey (v : string) (b : BackendConfig) : BackendConfig :=
  mkBackendConfig (Type_ b) (AWSProfile b) (AWSRegion b) v (APIVersion b)
    (URL b) (DefaultModel b) (ExtraHeaders b).
Definition set_APIVersion (v : string) (b : BackendConfig) : BackendConfig :=
  mkBackendConfig (Type_ b) (AWSProfile b) (AWSRegion b) (APIKey b) v
    (URL b) (DefaultModel b) (ExtraHeaders b).
Definition set_URL (v : string) (b : BackendConfig) : BackendConfig :=
  mkBackendConfig (Type_ b) (AWSProfile b) (AWSRegion b) (APIKey b)
    (APIVersion b) v (DefaultModel b) (ExtraHeaders b).
Definition set_DefaultModel (v : string) (b : BackendConfig) : BackendConfig :=
  mkBackendConfig (Type_ b) (AWSProfile b) (AWSRegion b) (APIKey b)
    (APIVersion b) (URL b) v (ExtraHeaders b).
Definition set_ExtraHeaders (v : gmap string string) (b : BackendConfig) : BackendConfig :=
  mkBackendConfig (Type_ b) (AWSProfile b) (AWSRegion b) (APIKey b)
    (APIVersion b) (URL b) (DefaultModel b) v.

Definition set_Backends (v : gmap string BackendConfig) (c : Config) : Config :=
  mkConfig v (DefaultBackend c).
Definition set_DefaultBackend (v : string) (c : Config) : Config :=
  mkConfig (Backends c) v.

(** *** The substitution pass *)

(** replaceEnvVar replaces an environment variable in a string with its
    actual value. *)
Definition replaceEnvVar (env : gmap string string) (s : string) : string :=
  GoOs.ExpandEnv env s.

(** The body of the loop of [replaceEnvVars], on the loop variable
    [backendConfig] (a copy of the map entry). *)
Definition replaceEnvVars_body (env : gmap string string)
    (backendConfig : BackendConfig) : BackendConfig :=
  let backendConfig :=
    if bool_decide (APIKey backendConfig ≠ "") then
      set_APIKey (replaceEnvVar env (APIKey backendConfig)) backendConfig
    else backendConfig in
  let backendConfig :=
    if bool_decide (AWSProfile backendConfig ≠ "") then
      set_AWSProfile (replaceEnvVar env (AWSProfile backendConfig)) backendConfig
    else backendConfig in
  let backendConfig :=
    if bool_decide (AWSRegion backendConfig ≠ "") then
      set_AWSRegion (replaceEnvVar env (AWSRegion backendConfig)) backendConfig
    else backendConfig in
  let backendConfig :=
    if bool_decide (URL backendConfig ≠ "") then
      set_URL (replaceEnvVar env (URL backendConfig)) backendConfig
    else backendConfig in
  let backendConfig :=
    if bool_decide (DefaultModel backendConfig ≠ "") then
      set_DefaultModel (replaceEnvVar env (DefaultModel backendConfig)) backendConfig
    else backendConfig in
  let backendConfig :=
    if bool_decide (APIVersion backendConfig ≠ "") then
      set_APIVersion (replaceEnvVar env (APIVersion backendConfig)) backendConfig
    else backendConfig in
  backendConfig.

(** Go leaves the order in which [range] visits a map unspecified; it only
    promises that every entry present throughout the loop is produced once.
    A [MapRange] is one admissible choice of order for every map. *)
Class MapRange : Type := {
  range_keys : gmap string BackendConfig → list string;
  range_keys_perm m : range_keys m ≡ₚ (map_to_list m).*1;
}.

(** One step of [for backendName, backendConfig := range conf.Backends]:
    the entry is read when the loop reaches its key, the body runs on the
    copy, and [conf.Backends[backendName] = backendConfig] stores it.  A key
    that is not in the map produces no iteration. *)
Definition replaceEnvVars_step (env : gmap string string)
    (conf : Config) (backendName : string) : Config :=
  match Backends conf !! backendName with
  | Some backendConfig =>
    let backendConfig := replaceEnvVars_body env backendConfig in
    set_Backends (<[backendName := backendConfig]> (Backends conf)) conf
  | None => conf
  end.

(** replaceEnvVars replaces any environment variables in the config with
    their actual values.  The Go map is a reference, so the stores also
    reach the map of the caller's [conf]; [LoadConfig], the only caller,
    replaces its [conf] by the returned one, which holds that same map, so
    passing the map by value loses nothing. *)
Definition replaceEnvVars `{MapRange} (env : gmap string string)
    (conf : Config) : Config :=
  foldl (replaceEnvVars_step env) conf (range_keys (Backends conf)).

(** *** The decoder, specialised to [Config] *)

(** Modelled from the spec: the decoder's error for a value whose type does
    not match the field's type. *)
Definition typeMismatch (key : string) : error :=
  errorString ("toml: incompatible types for key " +:+ key).

(** Modelled from the spec: the structured-document decoder
    (github.com/BurntSushi/toml), which is not part of the sources.  The
    spec's contract: parse a key/value document into the typed struct, keys
    that name no field are ignored, a value whose type does not match the
    field's type is an error, fields without a key keep the value they had.
    A field is found by its [toml:"..."] tag.  The decoder works in place on
    the struct it is given and stops at the first error.

    [assign_string] stores a string value into a string field. *)
Definition assign_string {S : Type} (key : string) (v : Toml.value)
    (set : string → S → S) (x : S) : S * option error :=
  match v with
  | Toml.VString s => (set s x, None)
  | _ => (x, Some (typeMismatch key))
  end.

(** Modelled from the spec: decoding a table into a [map[string]string]. *)
Fixpoint unify_headers (t : Toml.table) (m : gmap string string)
    : gmap string string * option error :=
  match t with
  | [] => (m, None)
  | (k, Toml.VString s) :: t' => unify_headers t' (<[k := s]> m)
  | (k, _) :: _ => (m, Some (typeMismatch k))
  end.

(** Modelled from the spec: one entry of a backend section, dispatched on
    the struct tags of [BackendConfig]. *)
Definition unify_BackendConfig_entry (key : string) (v : Toml.value)
    (b : BackendConfig) : BackendConfig * option error :=
  if bool_decide (key = "type") then assign_string key v set_Type b
  else if bool_decide (key = "aws_profile") then assign_string key v set_AWSProfile b
  else if bool_decide (key = "aws_region") then assign_string key v set_AWSRegion b
  else if bool_decide (key = "api_key") then assign_string key v set_APIKey b
  else if bool_decide (key = "api_version") then assign_string key v set_APIVersion b
  else if bool_decide (key = "url") then assign_string key v set_URL b
  else if bool_decide (key = "default_model") then assign_string key v set_DefaultModel b
  else if bool_decide (key = "extra_headers") then
    match v with
    | Toml.VTable t =>
      let '(m, err) := unify_headers t (ExtraHeaders b) in
      (set_ExtraHeaders m b, err)
    | _ => (b, Some (typeMismatch key))
    end
  else (b, None).

(** Modelled from the spec: decoding a table into a [BackendConfig]. *)
Fixpoint unify_BackendConfig (t : Toml.table) (b : BackendConfig)
    : BackendConfig * option error :=
  match t with
  | [] => (b, None)
  | (key, v) :: t' =>
    match unify_BackendConfig_entry key v b with
    | (b, None) => unify_BackendConfig t' b
    | (b, Some err) => (b, Some err)
    end
  end.

(** Modelled from the spec: decoding a table into a
    [map[string]BackendConfig]; every element starts from the zero value. *)
Fixpoint unify_Backends (t : Toml.table) (m : gmap string BackendConfig)
    : gmap string BackendConfig * option error :=
  match t with
  | [] => (m, None)
  | (name, Toml.VTable section) :: t' =>
    match unify_BackendConfig section BackendConfig_zero with
    | (b, None) => unify_Backends t' (<[name := b]> m)
    | (b, Some err) => (<[name := b]> m, Some err)
    end
  | (name, _) :: _ => (m, Some (typeMismatch name))
  end.

(** Modelled from the spec: one top-level entry, dispatched on the struct
    tags of [Config]. *)
Definition unify_Config_entry (key : string) (v : Toml.value)
    (conf : Config) : Config * option error :=
  if bool_decide (key = "backends") then
    match v with
    | Toml.VTable t =>
      let '(m, err) := unify_Backends t (Backends conf) in
      (set_Backends m conf, err)
    | _ => (conf, Some (typeMismatch key))
    end
  else if bool_decide (key = "default_backend") then
    assign_string key v set_DefaultBackend conf
  else (conf, None).

(** Modelled from the spec: decoding a document into a [Config]. *)
Fixpoint Decode (doc : Toml.table) (conf : Config) : Config * option error :=
  match doc with
  | [] => (conf, None)
  | (key, v) :: doc' =>
    match unify_Config_entry key v conf with
    | (conf, None) => Decode doc' conf
    | (conf, Some err) => (conf, Some err)
    end
  end.

(** *** The world outside the process *)

(** The collaborators of [LoadConfig]: the base-directory resolver
    [xdg.ConfigFile], the files the decoder can open, and the process
    environment. *)
Record World : Type := mkWorld {
  xdg_ConfigFile : string → string * option error;
  files : gmap string Toml.file;
  environ : gmap string string;
}.

(** Calls that reach the file system, in the order they are made. *)
Inductive Call : Type :=
| CallConfigFile (relPath : string)
| CallDecodeFile (path : string).

#[global] Instance Call_eq_dec : EqDecision Call.
Proof. solve_decision. Defined.

(** A computation with its trace of calls. *)
Definition IO (A : Type) : Type := A * list Call.

#[global] Instance io_ret : MRet IO := λ A a, (a, []).
#[global] Instance io_bind : MBind IO := λ A B k m,
  let '(a, t1) := m in
  let '(b, t2) := k a in
  (b, t1 ++ t2).

(** A call [c] to a collaborator that returns [a]. *)
Definition io_call {A} (c : Call) (a : A) : IO A := (a, [c]).

(** [xdg.ConfigFile(relPath)]. *)
Definition ConfigFile (w : World) (relPath : string) : IO (string * option error) :=
  io_call (CallConfigFile relPath) (xdg_ConfigFile w relPath).

(** Modelled from the spec: [toml.DecodeFile(path, &conf)].  A file that
    cannot be opened or parsed is an error and leaves [conf] as it was. *)
Definition DecodeFile (w : World) (path : string) (conf : Config)
    : IO (Config * option error) :=
  io_call (CallDecodeFile path)
    match files w !! path with
    | None => (conf, Some (errorString ("open " +:+ path +:+ ": no such file or directory")))
    | Some (Toml.Malformed err) => (conf, Some err)
    | Some (Toml.Document doc) => Decode doc conf
    end.

(** *** LoadConfig *)

(** LoadConfig loads an aiac configuration file from the provided path,
    which must be a TOML file.  If path is an empty string, the default path
    will be checked based on the XDG specification. *)
Definition LoadConfig `{MapRange} (w : World) (path : string)
    : IO (Config * option error) :=
  let conf := Config_zero in
  '(path, err) ←
    (if bool_decide (path = "") then ConfigFile w "aiac/aiac.toml"
     else mret (path, None));
  match err with
  | Some err => mret (conf, Some (Errorf_w "failed getting default config path" err))
  | None =>
    '(conf, err) ← DecodeFile w path conf;
    match err with
    | Some err => mret (conf, Some (Errorf_w "failed loading configuration" err))
    | None =>
      (* If any of the config values are env vars, replace them *)
      let conf := replaceEnvVars (environ w) conf in
      mret (conf, None)
    end
  end.

End Libaiac.

Import GoErrors Libaiac.

(** Two admissible iteration orders: the order of [map_to_list], and its
    reverse. *)
#[export] Instance range_forward : MapRange | 10 :=
  {| range_keys m := (map_to_list m).*1;
     range_keys_perm m := reflexivity _ |}.

Definition range_backward : MapRange :=
  {| range_keys m := reverse (map_to_list m).*1;
     range_keys_perm m := reverse_Permutation _ |}.

(* ------------------------------------------------------------------ *)
(** ** Vocabulary for the statements about [Expand] *)
(* ------------------------------------------------------------------ *)

Import GoOs.

(** What the loop of [Expand] appends for a dollar sign followed by the
    non-empty [rest], and how many bytes of [rest] it skips. *)
Definition expand_ref (mapping : string → string) (rest : bytes) : bytes * nat :=
  let '(name, w) := getShellName rest in
  (if bool_decide (name = []) && bool_decide (0 < w) then []
   else if bool_decide (name = []) then ["$"%char]
   else of_string (mapping (to_string name)), w).

(** The loop of [Expand] seen from the unread suffix [t = s[j:]]: the bytes
    that the rest of the run contributes to the result. *)
Fixpoint expand_suffix (fuel : nat) (mapping : string → string) (t : bytes) : bytes :=
  match fuel with
  | O => t
  | S fuel =>
    match t with
    | [] => []
    | c :: rest =>
      if Ascii.eqb c "$" && bool_decide (rest ≠ []) then
        let '(out, w) := expand_ref mapping rest in
        out ++ expand_suffix fuel mapping (drop w rest)
      else c :: expand_suffix fuel mapping rest
    end
  end.

Definition expand_bytes (mapping : string → string) (t : bytes) : bytes :=
  expand_suffix (length t) mapping t.

(** A byte that can follow a dollar sign to begin a variable reference: an
    opening brace, a special shell variable, or a name character. *)
Definition starts_reference (c : ascii) : bool :=
  Ascii.eqb c "{" || isShellSpecialVar c || isAlphaNum c.

(** A string has variable syntax when some dollar sign in it is followed by
    a byte that begins a reference. *)
Fixpoint has_var_syntax_bytes (s : bytes) : bool :=
  match s with
  | [] => false
  | c :: rest =>
    Ascii.eqb c "$" && from_option starts_reference false (head rest)
    || has_var_syntax_bytes rest
  end.

Definition has_var_syntax (s : string) : bool := has_var_syntax_bytes (of_string s).

(** Strings built from literal text and variable references. *)
Inductive token : Type :=
| Lit (text : string)       (* text without a dollar sign *)
| Plain (name : string)     (* [$name] *)
| Braced (name : string).   (* [${name}] *)

Definition render (tok : token) : bytes :=
  match tok with
  | Lit text => of_string text
  | Plain name => "$"%char :: of_string name
  | Braced name => "$"%char :: "{"%char :: of_string name ++ ["}"%char]
  end.

Definition render_all (toks : list token) : bytes := concat (render <$> toks).

Definition eval_token (mapping : string → string) (tok : token) : string :=
  match tok with
  | Lit text => text
  | Plain name | Braced name => mapping name
  end.

Definition eval_all (mapping : string → string) (toks : list token) : bytes :=
  concat ((λ tok, of_string (eval_token mapping tok)) <$> toks).

(** A [$name] reference is an identifier: name characters only, the first
    of them no digit (a digit after the dollar sign is a special variable of
    its own).  A [${name}] reference holds any non-empty name without a
    closing brace. *)
Definition wf_token (tok : token) : bool :=
  match tok with
  | Lit text => bool_decide ("$"%char ∉ of_string text)
  | Plain name =>
    match of_string name with
    | [] => false
    | c :: _ => negb (isShellSpecialVar c) && forallb isAlphaNum (of_string name)
    end
  | Braced name =>
    bool_decide (of_string name ≠ []) && bool_decide ("}"%char ∉ of_string name)
  end.

(** A [$name] reference ends where the name characters end, so what follows
    it must not begin with one. *)
Fixpoint wf_tokens (toks : list token) : bool :=
  match toks with
  | [] => true
  | tok :: rest =>
    wf_token tok
    && match tok with
       | Plain _ => negb (from_option isAlphaNum false (head (render_all rest)))
       | _ => true
       end
    && wf_tokens rest
  end.

(* ------------------------------------------------------------------ *)
(** ** Vocabulary for the statements about the substitution pass *)
(* ------------------------------------------------------------------ *)

(** The spec's field-selection policy: a field that is empty stays empty, a
    field that is not is replaced by its expansion. *)
Definition substitute_field (env : gmap string string) (s : string) : string :=
  if bool_decide (s = ""%string) then ""%string else ExpandEnv env s.

(** The profile the spec describes after the pass: the six selected fields
    substituted, [Type] and [ExtraHeaders] as they were. *)
Definition substituted_profile (env : gmap string string)
    (b : BackendConfig) : BackendConfig :=
  {| Type_ := Type_ b;
     AWSProfile := substitute_field env (AWSProfile b);
     AWSRegion := substitute_field env (AWSRegion b);
     APIKey := substitute_field env (APIKey b);
     APIVersion := substitute_field env (APIVersion b);
     URL := substitute_field env (URL b);
     DefaultModel := substitute_field env (DefaultModel b);
     ExtraHeaders := ExtraHeaders b |}.

(* ------------------------------------------------------------------ *)
(** ** Vocabulary for the statements about [LoadConfig] *)
(* ------------------------------------------------------------------ *)

(** The spec's PathResolver: the explicit path when there is one, the
    platform's answer for the application's file otherwise. *)
Definition resolve (w : World) (explicitPath : string) : string * option error :=
  if bool_decide (explicitPath = ""%string) then xdg_ConfigFile w "aiac/aiac.toml"
  else (explicitPath, None).

(** The spec's Decoder: the outcome of decoding the file at [path] into a
    fresh [Config]. *)
Definition decode_file (w : World) (path : string) : Config * option error :=
  (DecodeFile w path Config_zero).1.

(** What a caller can tell apart: the returned pair and the calls made. *)
Definition outcome `{MapRange} (w : World) (path : string) : Config * option error :=
  (LoadConfig w path).1.
Definition calls `{MapRange} (w : World) (path : string) : list Call :=
  (LoadConfig w path).2.

(** The document of the spec's example:
    [[backends.openai]  type="openai"  api_key="$MY_KEY"]. *)
Definition openai_document : list (string * Toml.value) :=
  [("backends"%string, Toml.VTable
     [("openai"%string, Toml.VTable
        [("type"%string, Toml.VString "openai");
         ("api_key"%string, Toml.VString "$MY_KEY")])])].

(* ------------------------------------------------------------------ *)
(** ** Vocabulary for the statements about decoding *)
(* ------------------------------------------------------------------ *)

(** The fields of [BackendConfig], with their [toml] tags and what it means
    for each to hold its zero value. *)
Inductive profile_field : Type :=
| FType | FAWSProfile | FAWSRegion | FAPIKey | FAPIVersion | FURL
| FDefaultModel | FExtraHeaders.

Definition field_tag (f : profile_field) : string :=
  match f with
  | FType => "type"
  | FAWSProfile => "aws_profile"
  | FAWSRegion => "aws_region"
  | FAPIKey => "api_key"
  | FAPIVersion => "api_version"
  | FURL => "url"
  | FDefaultModel => "default_model"
  | FExtraHeaders => "extra_headers"
  end.

Definition field_is_zero (f : profile_field) (b : BackendConfig) : Prop :=
  match f with
  | FType => Type_ b = ""%string
  | FAWSProfile => AWSProfile b = ""%string
  | FAWSRegion => AWSRegion b = ""%string
  | FAPIKey => APIKey b = ""%string
  | FAPIVersion => APIVersion b = ""%string
  | FURL => URL b = ""%string
  | FDefaultModel => DefaultModel b = ""%string
  | FExtraHeaders => ExtraHeaders b = ∅
  end.

(** Whether a table has an entry for [key]. *)
Definition has_key (t : list (string * Toml.value)) (key : string) : bool :=
  bool_decide (key ∈ t.*1).

(** The tables stored under [key] in a table. *)
Definition tables_at (key : string) (t : list (string * Toml.value))
    : list (list (string * Toml.value)) :=
  flat_map (λ entry,
    match entry with
    | (k, Toml.VTable sub) => if bool_decide (k = key) then [sub] else []
    | _ => []
    end) t.

(** The sections [[backends.name]] of a document. *)
Definition sections_of (doc : list (string * Toml.value)) (name : string)
    : list (list (string * Toml.value)) :=
  flat_map (tables_at name) (tables_at "backends" doc).

(** The field [f] of backend [name] is absent from the document: no section
    of that backend has an entry for the field's tag. *)
Definition field_absent (doc : list (string * Toml.value)) (name : string)
    (f : profile_field) : bool :=
  forallb (λ section, negb (has_key section (field_tag f))) (sections_of doc name).

(* ------------------------------------------------------------------ *)
(** ** Sample worlds *)
(* ------------------------------------------------------------------ *)

(** A resolver in the manner of a Unix-like system. *)
Definition unix_ConfigFile (relPath : string) : string * option error :=
  ("/home/user/.config/" +:+ relPath, None).

(** A world with no configuration file at all. *)
Definition bare_world : World := mkWorld unix_ConfigFile ∅ ∅.

(** A world with the spec's example file and [MY_KEY] set. *)
Definition openai_world : World :=
  mkWorld unix_ConfigFile
    {[ "/etc/aiac.toml"%string := Toml.Document openai_document ]}
    {[ "MY_KEY"%string := "sk-123"%string ]}.

(** The same file and environment in a world that differs elsewhere:
    another file exists, and the resolver fails. *)
Definition other_world : World :=
  mkWorld (λ _, (""%string, Some (errorString "no home directory")))
    {[ "/etc/aiac.toml"%string := Toml.Document openai_document;
       "/tmp/other.toml"%string := Toml.Malformed (errorString "toml: bad syntax") ]}
    {[ "MY_KEY"%string := "sk-123"%string ]}.

(** A string with text, both forms of reference, and an unset variable. *)
Definition sample_tokens : list token :=
  [Lit "key="; Plain "FOO"; Lit "/"; Braced "FOO"; Lit "."; Plain "BAZ"].

(* ------------------------------------------------------------------ *)
(** ** Vocabulary for further statements *)
(* ------------------------------------------------------------------ *)

(** The pass without its guards: the six fields substituted whether they
    are empty or not. *)
Definition substitute_all (env : gmap string string) (b : BackendConfig) : BackendConfig :=
  {| Type_ := Type_ b;
     AWSProfile := replaceEnvVar env (AWSProfile b);
     AWSRegion := replaceEnvVar env (AWSRegion b);
     APIKey := replaceEnvVar env (APIKey b);
     APIVersion := replaceEnvVar env (APIVersion b);
     URL := replaceEnvVar env (URL b);
     DefaultModel := replaceEnvVar env (DefaultModel b);
     ExtraHeaders := ExtraHeaders b |}.

(** None of the six substituted fields of the profile has variable syntax. *)
Definition profile_plain (b : BackendConfig) : bool :=
  negb (has_var_syntax (APIKey b)) && negb (has_var_syntax (AWSProfile b))
  && negb (has_var_syntax (AWSRegion b)) && negb (has_var_syntax (URL b))
  && negb (has_var_syntax (DefaultModel b)) && negb (has_var_syntax (APIVersion b)).

(** No value of the environment holds a dollar sign. *)
Definition dollar_free (env : gmap string string) : Prop :=
  map_Forall (λ _ value, "$"%char ∉ of_string value) env.

(* ------------------------------------------------------------------ *)
(** ** Vocabulary for the statements about repeated invocations *)
(* ------------------------------------------------------------------ *)

(** The decoder holds the entries of a table in a map and visits them in an
    order of its own, which may change from one invocation to the next.  A
    document lists the entries of each table in the order in which they are
    visited; [same_table t t'] holds when [t'] lists the entries of [t], and
    of the tables inside them, in another order. *)
Inductive same_table : list (string * Toml.value) → list (string * Toml.value) → Prop :=
| same_nil : same_table [] []
| same_entry key v t t' :
    same_table t t' → same_table ((key, v) :: t) ((key, v) :: t')
| same_sub key sub sub' t t' :
    same_table sub sub' → same_table t t' →
    same_table ((key, Toml.VTable sub) :: t) ((key, Toml.VTable sub') :: t')
| same_swap entry1 entry2 t :
    same_table (entry1 :: entry2 :: t) (entry2 :: entry1 :: t)
| same_trans t1 t2 t3 :
    same_table t1 t2 → same_table t2 t3 → same_table t1 t3.

(** A table of a document has one entry for a key at most, and so have the
    tables inside it. *)
Inductive unique_keys : list (string * Toml.value) → Prop :=
| unique_nil : unique_keys []
| unique_table key sub t :
    key ∉ t.*1 → unique_keys sub → unique_keys t →
    unique_keys ((key, Toml.VTable sub) :: t)
| unique_other key v t :
    key ∉ t.*1 → (∀ sub, v ≠ Toml.VTable sub) → unique_keys t →
    unique_keys ((key, v) :: t).

(** What two invocations find at a path is the same file: no file, bytes
    that do not parse, or one document, its entries visited in any order. *)
Definition same_file (f1 f2 : option Toml.file) : Prop :=
  match f1, f2 with
  | None, None => True
  | Some (Toml.Malformed _), Some (Toml.Malformed _) => True
  | Some (Toml.Document doc1), Some (Toml.Document doc2) =>
    unique_keys doc1 ∧ same_table doc1 doc2
  | _, _ => False
  end.

(** The two kinds of error of [LoadConfig], told by the context that its
    message begins with. *)
Inductive failure_kind : Type := PathResolutionFailure | DecodeFailure.

Definition error_kind (err : error) : option failure_kind :=
  if String.prefix "failed getting default config path: " (Error err)
  then Some PathResolutionFailure
  else if String.prefix "failed loading configuration: " (Error err)
  then Some DecodeFailure
  else None.

(** Two results are equal for a caller: the same [Config] when both are
    without error, the same kind of error when both have one. *)
Definition same_outcome (o1 o2 : Config * option error) : Prop :=
  match o1.2, o2.2 with
  | None, None => o1.1 = o2.1
  | Some err1, Some err2 =>
    ∃ kind, error_kind err1 = Some kind ∧ error_kind err2 = Some kind
  | _, _ => False
  end.

(** The decoder's steps on one entry of a table of headers and of the table
    of backends, as [unify_headers] and [unify_Backends] take them. *)
Definition unify_headers_entry (key : string) (v : Toml.value)
    (m : gmap string string) : gmap string string * option error :=
  match v with
  | Toml.VString s => (<[key := s]> m, None)
  | _ => (m, Some (typeMismatch key))
  end.

Definition unify_Backends_entry (name : string) (v : Toml.value)
    (m : gmap string BackendConfig) : gmap string BackendConfig * option error :=
  match v with
  | Toml.VTable section =>
    let '(b, err) := unify_BackendConfig section BackendConfig_zero in
    (<[name := b]> m, err)
  | _ => (m, Some (typeMismatch name))
  end.

(** A successful pass [run] over the table [t] is as successful, with the
    same result, over [t']. *)
Definition transfers {S : Type}
    (run : list (string * Toml.value) → S → S * option error)
    (t t' : list (string * Toml.value)) : Prop :=
  ∀ x y, run t x = (y, None) → run t' x = (y, None).

(** The assignment of a string to the string field [f] of a profile. *)
Definition set_string_field (f : profile_field) (s : string)
    (b : BackendConfig) : BackendConfig :=
  match f with
  | FType => set_Type s b
  | FAWSProfile => set_AWSProfile s b
  | FAWSRegion => set_AWSRegion s b
  | FAPIKey => set_APIKey s b
  | FAPIVersion => set_APIVersion s b
  | FURL => set_URL s b
  | FDefaultModel => set_DefaultModel s b
  | FExtraHeaders => b
  end.

(** Two invocations fail alike: neither has an error, or both have one of
    the same kind. *)
Definition same_failure (err1 err2 : option error) : Prop :=
  match err1, err2 with
  | None, None => True
  | Some err1, Some err2 =>
    ∃ kind, error_kind err1 = Some kind ∧ error_kind err2 = Some kind
  | _, _ => False
  end.

(** The document of the spec's example with the entries of its section in
    the other order. *)
Definition openai_document_reordered : list (string * Toml.value) :=
  [("backends"%string, Toml.VTable
     [("openai"%string, Toml.VTable
        [("api_key"%string, Toml.VString "$MY_KEY");
         ("type"%string, Toml.VString "openai")])])].

(** The world of the example as another invocation may find it: the
    decoder visits the section in the other order, another file exists and
    the resolver fails. *)
Definition reordered_world : World :=
  mkWorld (λ _, (""%string, Some (errorString "no home directory")))
    {[ "/etc/aiac.toml"%string := Toml.Document openai_document_reordered;
       "/tmp/other.toml"%string := Toml.Malformed (errorString "toml: bad syntax") ]}
    {[ "MY_KEY"%string := "sk-123"%string ]}.


(* ------------------------------------------------------------------ *)
(** ** Facts about [os.Expand] *)
(* ------------------------------------------------------------------ *)

Section Expand_facts.
Context (mapping : string → string).

Lemma to_of_string s : to_string (of_string s) = s.
Proof. apply string_of_list_ascii_of_string. Qed.

Lemma of_to_string b : of_string (to_string b) = b.
Proof. apply list_ascii_of_string_of_list_ascii. Qed.

Lemma slice_same (s : bytes) i : slice s i i = [].
Proof. unfold slice. by rewrite Nat.sub_diag. Qed.

Lemma slice_snoc (s : bytes) i j c :
  i ≤ j → s !! j = Some c → slice s i (S j) = slice s i j ++ [c].
Proof.
  intros Hij Hc. unfold slice.
  replace (S j - i) with (S (j - i)) by lia.
  apply take_S_r. rewrite lookup_drop. by replace (i + (j - i)) with j by lia.
Qed.

Lemma slice_drop (s : bytes) i j : i ≤ j → slice s i j ++ drop j s = drop i s.
Proof.
  intros Hij. unfold slice.
  replace (drop j s) with (drop (j - i) (drop i s)).
  - apply take_drop.
  - rewrite drop_drop. f_equal. lia.
Qed.

Lemma scanBrace_bound rest i k : scanBrace rest i = Some k → i ≤ k < i + length rest.
Proof.
  revert i. induction rest as [|c rest IH]; intros i; simpl; [done|].
  destruct (Ascii.eqb c "}").
  - intros [= <-]. lia.
  - intros H%IH. lia.
Qed.

Lemma scanAlphaNum_bound (s : bytes) : scanAlphaNum s ≤ length s.
Proof. induction s as [|c s IH]; simpl; [lia|]. destruct (isAlphaNum c); lia. Qed.

(** [getShellName] never consumes more than the string holds. *)
Lemma getShellName_width (s : bytes) : (getShellName s).2 ≤ length s.
Proof.
  destruct s as [|c0 s']; [done|]. unfold getShellName.
  destruct (Ascii.eqb c0 "{").
  - destruct (bool_decide (2 < length (c0 :: s'))) eqn:Hlen; simpl.
    + apply bool_decide_eq_true in Hlen.
      destruct (_ && _); simpl; [simpl in Hlen; lia|].
      destruct (scanBrace _ _) as [k|] eqn:Hk; simpl; [|lia].
      apply scanBrace_bound in Hk. simpl in Hk. rewrite drop_0 in Hk.
      destruct (bool_decide_reflect (k = 1)); simpl; lia.
    + destruct (scanBrace _ _) as [k|] eqn:Hk; simpl; [|lia].
      apply scanBrace_bound in Hk. simpl in Hk. rewrite drop_0 in Hk.
      destruct (bool_decide_reflect (k = 1)); simpl; lia.
  - destruct (isShellSpecialVar c0); simpl; [lia|].
    pose proof (scanAlphaNum_bound (c0 :: s')) as H. simpl in H. exact H.
Qed.

Lemma expand_ref_width (rest : bytes) : (expand_ref mapping rest).2 ≤ length rest.
Proof.
  unfold expand_ref. pose proof (getShellName_width rest) as H.
  by destruct (getShellName rest).
Qed.

(** The state reached by the loop, read as the result [Expand] builds from
    it: what was written to [buf], then the unread rest [s[i:]]. *)
Lemma Expand_loop_suffix fuel : ∀ (s : bytes) buf i j,
  i ≤ j ≤ length s → (buf = None → i = 0) →
  ∀ buf' i' j', Expand_loop fuel s mapping buf i j = (buf', i', j') →
  default [] buf' ++ drop i' s
    = default [] buf ++ slice s i j ++ expand_suffix fuel mapping (drop j s)
  ∧ (buf' = None → i' = 0).
Proof.
  induction fuel as [|fuel IH]; intros s buf i j Hij Hnil buf' i' j'; simpl.
  { intros [= <- <- <-]. split; [|done]. by rewrite slice_drop by lia. }
  destruct (bool_decide_reflect (j < length s)) as [Hj|Hj]; cycle 1.
  { intros [= <- <- <-]. split; [|done].
    rewrite (drop_ge s j) by lia. rewrite <-(slice_drop s i j) by lia.
    by rewrite (drop_ge s j) by lia. }
  destruct (lookup_lt_is_Some_2 s j Hj) as [c Hc].
  rewrite (drop_S s c j Hc), Hc.
  assert (Hdollar : bool_decide (Some c = Some "$"%char) = Ascii.eqb c "$").
  { destruct (Ascii.eqb_spec c "$") as [->|Hne].
    - by rewrite bool_decide_eq_true_2.
    - rewrite bool_decide_eq_false_2; [done|]. by intros [= ?]. }
  assert (Hrest : bool_decide (j + 1 < length s)
                  = bool_decide (drop (S j) s ≠ [])).
  { apply bool_decide_ext. rewrite <-length_zero_iff_nil, length_drop. lia. }
  rewrite Hdollar, Hrest. replace (j + 1) with (S j) by lia.
  destruct (Ascii.eqb c "$" && bool_decide (drop (S j) s ≠ [])) eqn:Hcond.
  - unfold expand_ref.
    pose proof (getShellName_width (drop (S j) s)) as Hw.
    destruct (getShellName (drop (S j) s)) as [name w]. simpl in Hw.
    rewrite length_drop in Hw.
    intros Hloop. apply IH in Hloop as [Hout Hnil']; [|lia|done].
    split; [|done]. rewrite Hout. simpl. rewrite slice_same. simpl.
    rewrite drop_drop. replace (S j + w) with (j + w + 1) by lia.
    repeat case_match; by rewrite <-?(assoc_L (++)).
  - intros Hloop. apply IH in Hloop as [Hout Hnil']; [|lia|done].
    split; [|done]. rewrite Hout.
    rewrite (slice_snoc s i j c) by (done || lia).
    by rewrite <-(assoc_L (++)).
Qed.

(** Every iteration advances [j], so [length s - j] units of fuel reach the
    failing loop guard: the state returned is the one the Go loop ends in. *)
Lemma Expand_loop_exits fuel : ∀ (s : bytes) buf i j,
  length s ≤ j + fuel → length s ≤ (Expand_loop fuel s mapping buf i j).2.
Proof.
  induction fuel as [|fuel IH]; intros s buf i j Hfuel; simpl; [lia|].
  destruct (bool_decide_reflect (j < length s)); [|simpl; lia].
  destruct (_ && _).
  - destruct (getShellName _) as [name w]. apply IH. lia.
  - apply IH. lia.
Qed.

(** The indices stay in range, so no slice expression of the loop, nor the
    final [s[i:]], is out of bounds. *)
Lemma Expand_loop_bounds fuel : ∀ (s : bytes) buf i j,
  i ≤ j ≤ length s →
  ∀ buf' i' j', Expand_loop fuel s mapping buf i j = (buf', i', j') →
  i' ≤ j' ≤ length s.
Proof.
  induction fuel as [|fuel IH]; intros s buf i j Hij buf' i' j'; simpl.
  { by intros [= <- <- <-]. }
  destruct (bool_decide_reflect (j < length s)) as [Hj|Hj];
    [|by intros [= <- <- <-]].
  destruct (_ && _).
  - pose proof (getShellName_width (drop (j + 1) s)) as Hw.
    destruct (getShellName _) as [name w]. simpl in Hw.
    rewrite length_drop in Hw. apply IH. lia.
  - apply IH. lia.
Qed.

(** Fuel beyond the length of the unread suffix changes nothing. *)
Lemma expand_suffix_fuel fuel1 : ∀ fuel2 (t : bytes),
  length t ≤ fuel1 → length t ≤ fuel2 →
  expand_suffix fuel1 mapping t = expand_suffix fuel2 mapping t.
Proof.
  induction fuel1 as [|fuel1 IH]; intros fuel2 t H1 H2.
  { destruct t; [|simpl in H1; lia]. by destruct fuel2. }
  destruct t as [|c rest]; [by destruct fuel2|].
  destruct fuel2 as [|fuel2]; [simpl in H2; lia|]. simpl in *.
  destruct (_ && _).
  - pose proof (expand_ref_width rest) as Hw.
    destruct (expand_ref mapping rest) as [out w]. f_equal.
    apply IH; rewrite length_drop; lia.
  - f_equal. apply IH; lia.
Qed.

Lemma expand_suffix_bytes fuel (t : bytes) :
  length t ≤ fuel → expand_suffix fuel mapping t = expand_bytes mapping t.
Proof. intros. by apply expand_suffix_fuel. Qed.

Lemma expand_bytes_nil : expand_bytes mapping [] = [].
Proof. done. Qed.

Lemma expand_bytes_plain c (rest : bytes) :
  c ≠ "$"%char ∨ rest = [] →
  expand_bytes mapping (c :: rest) = c :: expand_bytes mapping rest.
Proof.
  intros Hc. unfold expand_bytes at 1. simpl.
  replace (Ascii.eqb c "$" && bool_decide (rest ≠ [])) with false; [done|].
  symmetry. apply andb_false_iff. destruct Hc as [Hc| ->].
  - left. by apply Ascii.eqb_neq.
  - right. by apply bool_decide_eq_false_2; intros [].
Qed.

Lemma expand_bytes_dollar (rest : bytes) :
  rest ≠ [] →
  expand_bytes mapping ("$"%char :: rest)
    = (expand_ref mapping rest).1
      ++ expand_bytes mapping (drop (expand_ref mapping rest).2 rest).
Proof.
  intros Hrest. unfold expand_bytes at 1. simpl.
  rewrite bool_decide_eq_true_2 by done.
  pose proof (expand_ref_width rest) as Hw.
  destruct (expand_ref mapping rest) as [out w]. simpl in *. f_equal.
  apply expand_suffix_bytes. rewrite length_drop. lia.
Qed.

(** [Expand] computes [expand_bytes]. *)
Lemma Expand_bytes (s : string) :
  Expand s mapping = to_string (expand_bytes mapping (of_string s)).
Proof.
  unfold Expand.
  destruct (Expand_loop _ _ _ _ _ _) as [[buf' i'] j'] eqn:Hloop.
  apply Expand_loop_suffix in Hloop as [Hout Hnil]; [|lia|done].
  rewrite slice_same, drop_0 in Hout. simpl in Hout.
  fold (expand_bytes mapping (of_string s)) in Hout. rewrite <-Hout.
  destruct buf' as [buf'|]; [done|].
  rewrite Hnil, drop_0 by done. symmetry. apply to_of_string.
Qed.

(** *** Strings without variable syntax *)

Lemma getShellName_no_reference c (rest : bytes) :
  starts_reference c = false → getShellName (c :: rest) = ([], 0).
Proof.
  unfold starts_reference, getShellName. intros H.
  apply orb_false_iff in H as [H Halnum]. apply orb_false_iff in H as [-> ->].
  simpl. by rewrite Halnum.
Qed.

Lemma expand_bytes_no_var_syntax (t : bytes) :
  has_var_syntax_bytes t = false → expand_bytes mapping t = t.
Proof.
  induction t as [|c rest IH]; [done|]. simpl. intros H.
  apply orb_false_iff in H as [Hhere Hrest]. specialize (IH Hrest).
  destruct (Ascii.eqb_spec c "$") as [->|Hc]; cycle 1.
  { rewrite expand_bytes_plain by auto. by rewrite IH. }
  destruct rest as [|c1 rest'].
  { by rewrite expand_bytes_plain by auto. }
  simpl in Hhere. rewrite expand_bytes_dollar by done.
  unfold expand_ref. rewrite getShellName_no_reference by done.
  simpl. by rewrite IH.
Qed.

(** *** Strings made of text and references *)

Lemma expand_bytes_text (t rest : bytes) :
  "$"%char ∉ t → expand_bytes mapping (t ++ rest) = t ++ expand_bytes mapping rest.
Proof.
  induction t as [|c t IH]; [done|]. intros Hnotin.
  apply not_elem_of_cons in Hnotin as [Hc Ht]. simpl.
  rewrite expand_bytes_plain by auto. by rewrite IH.
Qed.

Lemma isAlphaNum_not_brace c : isAlphaNum c = true → Ascii.eqb c "{" = false.
Proof. intros H. destruct (Ascii.eqb_spec c "{") as [->|]; done. Qed.

Lemma scanAlphaNum_name (n rest : bytes) :
  forallb isAlphaNum n = true →
  from_option isAlphaNum false (head rest) = false →
  scanAlphaNum (n ++ rest) = length n.
Proof.
  intros Hn Hrest. induction n as [|c n IH]; simpl in *.
  - destruct rest as [|c rest]; [done|]. simpl in *. by rewrite Hrest.
  - apply andb_true_iff in Hn as [-> Hn]. by rewrite IH.
Qed.

Lemma getShellName_plain (n rest : bytes) c n' :
  n = c :: n' → isShellSpecialVar c = false → forallb isAlphaNum n = true →
  from_option isAlphaNum false (head rest) = false →
  getShellName (n ++ rest) = (n, length n).
Proof.
  intros -> Hspecial Hn Hrest.
  pose proof (scanAlphaNum_name (c :: n') rest Hn Hrest) as Hscan.
  simpl in Hn. apply andb_true_iff in Hn as [Hc Hn].
  unfold getShellName. cbn [app].
  rewrite (isAlphaNum_not_brace c Hc), Hspecial.
  change (c :: n' ++ rest) with ((c :: n') ++ rest).
  by rewrite Hscan, take_app_length.
Qed.

Lemma scanBrace_closing (n rest : bytes) i :
  "}"%char ∉ n → scanBrace (n ++ "}"%char :: rest) i = Some (i + length n).
Proof.
  revert i. induction n as [|c n IH]; intros i Hn; simpl.
  - f_equal. lia.
  - apply not_elem_of_cons in Hn as [Hc Hn].
    replace (Ascii.eqb c "}") with false by (symmetry; by apply Ascii.eqb_neq).
    rewrite IH by done. f_equal. lia.
Qed.

Lemma getShellName_braced (n rest : bytes) :
  n ≠ [] → "}"%char ∉ n →
  getShellName ("{"%char :: n ++ "}"%char :: rest) = (n, length n + 2).
Proof.
  intros Hne Hn. unfold getShellName. cbn [Ascii.eqb Bool.eqb].
  destruct (_ && _ && _) eqn:Hspecial.
  - apply andb_true_iff in Hspecial as [_ Hclose].
    apply bool_decide_eq_true in Hclose.
    destruct n as [|c1 [|c2 n]]; [done| |].
    + done.
    + simpl in Hclose. injection Hclose as ->. exfalso. apply Hn.
      apply elem_of_cons. right. apply elem_of_cons. by left.
  - simpl. rewrite drop_0, scanBrace_closing by done.
    rewrite bool_decide_eq_false_2 by (destruct n; simpl; [done|lia]).
    unfold slice. simpl. rewrite drop_0.
    rewrite Nat.sub_0_r, take_app_length. f_equal. lia.
Qed.

Lemma render_all_cons tok toks : render_all (tok :: toks) = render tok ++ render_all toks.
Proof. done. Qed.

Lemma eval_all_cons tok toks :
  eval_all mapping (tok :: toks)
    = of_string (eval_token mapping tok) ++ eval_all mapping toks.
Proof. done. Qed.

Lemma expand_bytes_tokens (toks : list token) :
  wf_tokens toks = true →
  expand_bytes mapping (render_all toks) = eval_all mapping toks.
Proof.
  induction toks as [|tok toks IH]; [done|].
  rewrite render_all_cons, eval_all_cons. cbn [wf_tokens].
  intros H. apply andb_true_iff in H as [H Htoks].
  apply andb_true_iff in H as [Htok Hnext]. specialize (IH Htoks).
  destruct tok as [text|name|name]; cbn [render eval_token wf_token] in *.
  - apply bool_decide_eq_true in Htok.
    by rewrite expand_bytes_text, IH.
  - destruct (of_string name) as [|c n'] eqn:Hname; [done|].
    apply andb_true_iff in Htok as [Hspecial Hn].
    apply negb_true_iff in Hspecial, Hnext.
    cbn [app]. rewrite expand_bytes_dollar by done. unfold expand_ref.
    change (c :: n' ++ ?r) with ((c :: n') ++ r).
    rewrite (getShellName_plain (c :: n') _ c n') by done.
    rewrite bool_decide_eq_false_2 by done. cbn [andb fst snd].
    rewrite drop_app_length, IH, <-Hname. by rewrite to_of_string.
  - apply andb_true_iff in Htok as [Hne Hn].
    apply bool_decide_eq_true in Hne, Hn.
    cbn [app]. rewrite expand_bytes_dollar by done. unfold expand_ref.
    rewrite <-(assoc_L (++)). cbn [app].
    rewrite getShellName_braced by done.
    rewrite bool_decide_eq_false_2 by done. cbn [andb fst snd].
    replace (length (of_string name) + 2) with (S (length (of_string name) + 1)) by lia.
    cbn [drop]. rewrite <-drop_drop, drop_app_length. cbn [drop].
    by rewrite drop_0, IH, to_of_string.
Qed.

Lemma Expand_tokens (toks : list token) :
  wf_tokens toks = true →
  Expand (to_string (render_all toks)) mapping = to_string (eval_all mapping toks).
Proof.
  intros Hwf. by rewrite Expand_bytes, of_to_string, expand_bytes_tokens.
Qed.

Lemma Expand_plain (name : string) :
  wf_tokens [Plain name] = true → Expand (String "$" name) mapping = mapping name.
Proof.
  intros Hwf. pose proof (Expand_tokens [Plain name] Hwf) as H.
  unfold render_all, eval_all in H. cbn [fmap list_fmap concat render eval_token] in H.
  rewrite !app_nil_r in H. unfold to_string in H at 1. cbn [string_of_list_ascii] in H.
  fold (to_string (of_string name)) in H. by rewrite !to_of_string in H.
Qed.

Lemma Expand_braced (name : string) :
  wf_tokens [Braced name] = true →
  Expand (String "$" (String "{" (name +:+ "}"))) mapping = mapping name.
Proof.
  intros Hwf. pose proof (Expand_tokens [Braced name] Hwf) as H.
  unfold render_all, eval_all in H. cbn [fmap list_fmap concat render eval_token] in H.
  rewrite !app_nil_r in H. rewrite to_of_string in H. rewrite <-H. f_equal.
  unfold to_string. cbn [string_of_list_ascii]. do 2 f_equal.
  clear. unfold of_string. induction name as [|c name IH]; [done|].
  cbn. by rewrite <-IH.
Qed.

Lemma Expand_no_var_syntax (s : string) :
  has_var_syntax s = false → Expand s mapping = s.
Proof.
  intros H. rewrite Expand_bytes, expand_bytes_no_var_syntax by done.
  apply to_of_string.
Qed.

End Expand_facts.

(** *** Variable syntax is what [Expand] rewrites

    With every variable unset, a string with variable syntax comes out
    shorter: [has_var_syntax] singles out the strings that some environment
    changes. *)

Section Expand_unset.
Context (unset : string → string) (Hunset : ∀ name, unset name = ""%string).

Lemma getShellName_reference c (rest : bytes) :
  starts_reference c = true → 0 < (getShellName (c :: rest)).2.
Proof.
  unfold starts_reference, getShellName. intros H.
  destruct (Ascii.eqb c "{").
  - destruct (_ && _ && _); cbn [snd]; [lia|].
    destruct (scanBrace _ _) as [k|]; cbn [snd]; [|lia].
    destruct (bool_decide (k = 1)); cbn [snd]; lia.
  - destruct (isShellSpecialVar c); cbn [snd]; [lia|].
    cbn in H. cbn [scanAlphaNum]. rewrite H. lia.
Qed.

Lemma expand_ref_reference c (rest : bytes) :
  starts_reference c = true →
  (expand_ref unset (c :: rest)).1 = [] ∧ 0 < (expand_ref unset (c :: rest)).2.
Proof.
  intros H%(getShellName_reference c rest). unfold expand_ref.
  destruct (getShellName (c :: rest)) as [name w]. cbn [fst snd] in *.
  split; [|done].
  destruct (bool_decide_reflect (name = [])); cbn [andb]; [|by rewrite Hunset].
  by rewrite bool_decide_eq_true_2.
Qed.

Lemma expand_ref_length (t : bytes) :
  length (expand_ref unset t).1 ≤ 1
  ∧ ((expand_ref unset t).2 = 0 ∨ (expand_ref unset t).1 = []).
Proof.
  unfold expand_ref. destruct (getShellName t) as [name w]. cbn [fst snd].
  destruct (bool_decide_reflect (name = [])); cbn [andb].
  - destruct (bool_decide_reflect (0 < w)); cbn; [auto|].
    split; [lia|]. left. lia.
  - rewrite Hunset. cbn. auto.
Qed.

Lemma expand_suffix_unset_length fuel : ∀ t : bytes,
  length (expand_suffix fuel unset t) ≤ length t.
Proof.
  induction fuel as [|fuel IH]; intros t; [done|].
  destruct t as [|c rest]; [done|]. cbn [expand_suffix].
  destruct (_ && _).
  - pose proof (expand_ref_length rest) as [Hout Hw].
    pose proof (expand_ref_width unset rest) as Hwidth.
    destruct (expand_ref unset rest) as [out w]. cbn [fst snd] in *.
    specialize (IH (drop w rest)).
    rewrite length_app. rewrite length_drop in IH. cbn [length]. lia.
  - cbn [length]. specialize (IH rest). lia.
Qed.

Lemma expand_suffix_unset_shorter fuel : ∀ t : bytes,
  length t ≤ fuel → has_var_syntax_bytes t = true →
  length (expand_suffix fuel unset t) < length t.
Proof.
  induction fuel as [|fuel IH]; intros t Hfuel Hsyntax.
  { destruct t; [done|]. cbn in Hfuel. lia. }
  destruct t as [|c rest]; [done|]. cbn [expand_suffix].
  cbn [has_var_syntax_bytes] in Hsyntax. cbn [length] in Hfuel.
  destruct (Ascii.eqb c "$" && bool_decide (rest ≠ [])) eqn:Hdollar.
  - destruct rest as [|c1 rest']; [by rewrite andb_false_r in Hdollar|].
    apply andb_true_iff in Hdollar as [Hc _]. rewrite Hc in Hsyntax.
    cbn [head from_option andb] in Hsyntax.
    destruct (starts_reference c1) eqn:Href.
    + destruct (expand_ref_reference c1 rest' Href) as [Hout Hw].
      pose proof (expand_ref_width unset (c1 :: rest')) as Hwidth.
      destruct (expand_ref unset (c1 :: rest')) as [out w]. cbn [fst snd] in *.
      subst out. cbn [app].
      pose proof (expand_suffix_unset_length fuel (drop w (c1 :: rest'))) as Hle.
      rewrite length_drop in Hle. cbn [length] in *. lia.
    + cbn [orb] in Hsyntax. unfold expand_ref.
      rewrite getShellName_no_reference by done. cbn.
      assert (has_var_syntax_bytes (c1 :: rest') = true) as Hrest by done.
      specialize (IH (c1 :: rest') ltac:(lia) Hrest).
      rewrite bool_decide_eq_false_2 by lia. cbn [length app] in *. lia.
  - assert (has_var_syntax_bytes rest = true) as Hrest.
    { apply orb_true_iff in Hsyntax as [Hhere|]; [|done].
      apply andb_true_iff in Hhere as [Hc Hhead]. rewrite Hc in Hdollar.
      destruct rest; [done|]. by rewrite bool_decide_eq_true_2 in Hdollar. }
    specialize (IH rest ltac:(lia) Hrest). cbn [length]. lia.
Qed.

Lemma Expand_var_syntax (s : string) :
  has_var_syntax s = true → Expand s unset ≠ s.
Proof.
  intros Hsyntax Heq. rewrite Expand_bytes in Heq.
  pose proof (expand_suffix_unset_shorter (length (of_string s)) (of_string s)
                ltac:(lia) Hsyntax) as Hlen.
  fold (expand_bytes unset (of_string s)) in Hlen.
  apply (f_equal of_string) in Heq. rewrite of_to_string in Heq.
  rewrite Heq in Hlen. lia.
Qed.

End Expand_unset.

Lemma Getenv_empty (name : string) : Getenv ∅ name = ""%string.
Proof. unfold Getenv. by rewrite lookup_empty. Qed.

(** In the empty environment every string with variable syntax changes. *)
Lemma ExpandEnv_var_syntax (s : string) :
  has_var_syntax s = true → ExpandEnv ∅ s ≠ s.
Proof. apply Expand_var_syntax, Getenv_empty. Qed.

(** C4: with [FOO=bar] in the environment, ["$FOO"] and ["${FOO}"] become
    ["bar"]; with [BAZ] unset, ["$BAZ"] becomes the empty string; and in a
    string made of text and any number of references, every reference is
    replaced by the value of its variable. *)
Theorem C4_references_replaced (env : gmap string string) :
  (env !! "FOO"%string = Some "bar"%string →
     replaceEnvVar env "$FOO" = "bar"%string
     ∧ replaceEnvVar env "${FOO}" = "bar"%string)
  ∧ (env !! "BAZ"%string = None → replaceEnvVar env "$BAZ" = ""%string)
  ∧ (∀ toks, wf_tokens toks = true →
       replaceEnvVar env (to_string (render_all toks))
       = to_string (eval_all (Getenv env) toks)).
Proof.
  unfold replaceEnvVar, ExpandEnv. split_and!.
  - intros Hfoo. rewrite Expand_plain by done.
    rewrite (Expand_braced _ "FOO") by done.
    unfold Getenv. by rewrite Hfoo.
  - intros Hbaz. rewrite Expand_plain by done. unfold Getenv. by rewrite Hbaz.
  - intros toks Hwf. by apply Expand_tokens.
Qed.

Lemma C4_witness :
  replaceEnvVar {[ "FOO"%string := "bar"%string ]} "$FOO" = "bar"%string
  ∧ replaceEnvVar {[ "FOO"%string := "bar"%string ]} "${FOO}" = "bar"%string
  ∧ replaceEnvVar {[ "FOO"%string := "bar"%string ]} "$BAZ" = ""%string
  ∧ replaceEnvVar {[ "FOO"%string := "bar"%string ]} "key=$FOO/${FOO}.$BAZ"
    = "key=bar/bar."%string.
Proof.
  destruct (C4_references_replaced {[ "FOO"%string := "bar"%string ]})
    as (Hfoo & Hbaz & Htoks).
  destruct (Hfoo eq_refl) as [Hplain Hbraced].
  split; [exact Hplain|]. split; [exact Hbraced|].
  split; [exact (Hbaz eq_refl)|].
  exact (Htoks sample_tokens eq_refl).
Defined.

(** C5: [replaceEnvVar] is a function of the environment and the string
    alone, and it always returns: the loop of [os.Expand] reaches the end of
    the string within the fuel it is given, with its indices in range.  On a
    string without variable syntax (no dollar sign followed by a byte that
    begins a reference) it returns the string itself, in every
    environment. *)
Theorem C5_plain_strings_unchanged (env : gmap string string) (s : string) :
  (∀ buf i j,
     Expand_loop (length (of_string s)) (of_string s) (Getenv env) None 0 0
       = (buf, i, j) →
     i ≤ j ∧ j = length (of_string s))
  ∧ (has_var_syntax s = false → replaceEnvVar env s = s).
Proof.
  split.
  - intros buf i j Hloop.
    pose proof (Expand_loop_exits (Getenv env) (length (of_string s))
                  (of_string s) None 0 0) as Hexit.
    rewrite Hloop in Hexit. cbn [snd] in Hexit.
    apply Expand_loop_bounds in Hloop; lia.
  - apply Expand_no_var_syntax.
Qed.

Lemma C5_witness :
  replaceEnvVar {[ "FOO"%string := "bar"%string ]} "5 $ or 5 %, FOO {FOO} $"
  = "5 $ or 5 %, FOO {FOO} $"%string.
Proof.
  apply (proj2 (C5_plain_strings_unchanged _ _)). reflexivity.
Defined.

(** [os.Expand] on the cases of its own documentation: special variables,
    malformed references (eaten), and dollar signs that begin nothing. *)
Example Expand_special :
  Expand "$$ $1x ${*} ${HOME}$home_1" (λ name, "<" +:+ name +:+ ">")%string
  = "<$> <1>x <*> <HOME><home_1>"%string.
Proof. by vm_compute. Qed.

Example Expand_malformed :
  Expand "${" id = ""%string ∧ Expand "${}x" id = "x"%string
  ∧ Expand "start$+middle$^end$" id = "start$+middle$^end$"%string.
Proof. by vm_compute. Qed.
(* ------------------------------------------------------------------ *)
(** ** Facts about the substitution pass *)
(* ------------------------------------------------------------------ *)

Section replaceEnvVars_facts.
Context (env : gmap string string).

(** Decide whether the field [s] is empty, and settle the tests on it. *)
Ltac field_case s :=
  destruct (decide (s = ""%string)) as [->|?];
  [ rewrite ?(bool_decide_eq_false_2 (""%string ≠ ""%string)) by (intros Hne; by apply Hne);
    rewrite ?(bool_decide_eq_true_2 (""%string = ""%string)) by done
  | rewrite ?(bool_decide_eq_true_2 (s ≠ ""%string)) by done;
    rewrite ?(bool_decide_eq_false_2 (s = ""%string)) by done ];
  cbn [set_APIKey set_AWSProfile set_AWSRegion set_URL set_DefaultModel
       set_APIVersion Type_ AWSProfile AWSRegion APIKey APIVersion URL
       DefaultModel ExtraHeaders].

(** The loop body is the spec's field-selection policy. *)
Lemma replaceEnvVars_body_fields (b : BackendConfig) :
  replaceEnvVars_body env b = substituted_profile env b.
Proof.
  destruct b as [ty prof reg key ver url model hdrs].
  unfold replaceEnvVars_body, substituted_profile, substitute_field, replaceEnvVar.
  cbn [Type_ AWSProfile AWSRegion APIKey APIVersion URL DefaultModel ExtraHeaders].
  field_case key; field_case prof; field_case reg; field_case url;
    field_case model; field_case ver; reflexivity.
Qed.

Lemma replaceEnvVars_step_DefaultBackend conf name :
  DefaultBackend (replaceEnvVars_step env conf name) = DefaultBackend conf.
Proof. unfold replaceEnvVars_step. by destruct (Backends conf !! name). Qed.

Lemma replaceEnvVars_step_lookup conf name k :
  Backends (replaceEnvVars_step env conf name) !! k
    = if decide (k = name) then replaceEnvVars_body env <$> Backends conf !! k
      else Backends conf !! k.
Proof.
  unfold replaceEnvVars_step.
  destruct (Backends conf !! name) as [b|] eqn:Hb; simpl.
  - case_decide as Hk.
    + subst k. by rewrite lookup_insert_eq, Hb.
    + by rewrite lookup_insert_ne.
  - case_decide as Hk; [|done]. subst k. by rewrite Hb.
Qed.

(** Running the loop over any list of distinct keys rewrites the entries
    under those keys and no others. *)
Lemma replaceEnvVars_loop_lookup (keys : list string) : ∀ conf k,
  NoDup keys →
  Backends (foldl (replaceEnvVars_step env) conf keys) !! k
    = if decide (k ∈ keys) then replaceEnvVars_body env <$> Backends conf !! k
      else Backends conf !! k.
Proof.
  induction keys as [|name keys IH]; intros conf k Hnodup; cbn [foldl].
  { case_decide as Hk; [|done]. by apply elem_of_nil in Hk. }
  apply NoDup_cons in Hnodup as [Hname Hnodup].
  rewrite IH, replaceEnvVars_step_lookup by done.
  destruct (decide (k = name)) as [->|Hne].
  - rewrite (decide_False (P := name ∈ keys)) by done.
    rewrite (decide_True (P := name ∈ name :: keys)); [done|]. by left.
  - destruct (decide (k ∈ keys)) as [Hin|Hnotin].
    + rewrite (decide_True (P := k ∈ name :: keys)); [done|]. by right.
    + rewrite (decide_False (P := k ∈ name :: keys)); [done|].
      intros [?|?]%elem_of_cons; done.
Qed.

Lemma replaceEnvVars_loop_DefaultBackend (keys : list string) : ∀ conf,
  DefaultBackend (foldl (replaceEnvVars_step env) conf keys) = DefaultBackend conf.
Proof.
  induction keys as [|name keys IH]; intros conf; simpl; [done|].
  by rewrite IH, replaceEnvVars_step_DefaultBackend.
Qed.

Context `{R : MapRange}.

Lemma range_keys_NoDup (m : gmap string BackendConfig) : NoDup (range_keys m).
Proof. rewrite range_keys_perm. apply NoDup_fst_map_to_list. Qed.

Lemma elem_of_range_keys (m : gmap string BackendConfig) k :
  k ∈ range_keys m ↔ is_Some (m !! k).
Proof.
  rewrite range_keys_perm, list_elem_of_fmap. split.
  - intros [[k' b] [-> Hin]]. apply elem_of_map_to_list in Hin. by exists b.
  - intros [b Hb]. exists (k, b). split; [done|]. by apply elem_of_map_to_list.
Qed.

Lemma replaceEnvVars_lookup conf k :
  Backends (replaceEnvVars env conf) !! k
    = replaceEnvVars_body env <$> Backends conf !! k.
Proof.
  unfold replaceEnvVars.
  rewrite replaceEnvVars_loop_lookup by apply range_keys_NoDup.
  case_decide as Hk; [done|].
  rewrite elem_of_range_keys in Hk.
  destruct (Backends conf !! k); [|done]. exfalso. by apply Hk.
Qed.

(** The pass, whatever the order of the iteration: every profile goes
    through the loop body once, under its own key. *)
Lemma replaceEnvVars_fmap conf :
  replaceEnvVars env conf
    = mkConfig (replaceEnvVars_body env <$> Backends conf) (DefaultBackend conf).
Proof.
  pose proof (replaceEnvVars_loop_DefaultBackend (range_keys (Backends conf)) conf) as Hd.
  fold (replaceEnvVars env conf) in Hd.
  assert (Backends (replaceEnvVars env conf)
          = replaceEnvVars_body env <$> Backends conf) as Hb.
  { apply map_eq. intros k. by rewrite replaceEnvVars_lookup, lookup_fmap. }
  destruct (replaceEnvVars env conf). simpl in *. by subst.
Qed.

End replaceEnvVars_facts.

(** C1: the substitution pass turns every profile of [Backends] into its
    [substituted_profile]: the six fields [APIKey], [AWSProfile],
    [AWSRegion], [URL], [DefaultModel] and [APIVersion] are substituted when
    they are not empty and stay empty when they are, while [Type] and
    [ExtraHeaders] (keys and values) are the ones of the profile before the
    pass, whatever they contain.  Nothing else is in a profile. *)
Theorem C1_substitution_field_policy `{R : MapRange}
    (env : gmap string string) (conf : Config) :
  Backends (replaceEnvVars env conf) = substituted_profile env <$> Backends conf.
Proof.
  rewrite replaceEnvVars_fmap. cbn [Backends].
  apply map_fmap_ext. intros name b _. apply replaceEnvVars_body_fields.
Qed.

(** C8: the pass leaves the top-level [DefaultBackend] as it was, whatever
    it contains; only profiles inside [Backends] are substituted. *)
Theorem C8_DefaultBackend_untouched `{R : MapRange}
    (env : gmap string string) (conf : Config) :
  DefaultBackend (replaceEnvVars env conf) = DefaultBackend conf.
Proof. by rewrite replaceEnvVars_fmap. Qed.

(** C9: the pass preserves the key set of [Backends], and the profile found
    under a key after the pass is the loop body's result on the profile that
    was under that same key before it. *)
Theorem C9_backend_names_preserved `{R : MapRange}
    (env : gmap string string) (conf : Config) :
  dom (Backends (replaceEnvVars env conf)) = dom (Backends conf)
  ∧ ∀ name : string,
      Backends (replaceEnvVars env conf) !! name
        = replaceEnvVars_body env <$> Backends conf !! name.
Proof.
  split.
  - rewrite replaceEnvVars_fmap. cbn [Backends]. apply dom_fmap_L.
  - intros name. apply replaceEnvVars_lookup.
Qed.

(** The pass on a profile whose [Type] and [ExtraHeaders] hold variable
    syntax: the key field is substituted, they are not. *)
Example replaceEnvVars_body_sample :
  replaceEnvVars_body {[ "K"%string := "v"%string ]}
    (mkBackendConfig "$K" "" "" "$K-${K}" "" "" "" {[ "$K"%string := "${K}"%string ]})
  = mkBackendConfig "$K" "" "" "v-v" "" "" "" {[ "$K"%string := "${K}"%string ]}.
Proof. by vm_compute. Qed.

(* ------------------------------------------------------------------ *)
(** ** Facts about [LoadConfig] *)
(* ------------------------------------------------------------------ *)

Section LoadConfig_facts.
Context `{R : MapRange} (w : World).

Lemma DecodeFile_decode (p : string) :
  DecodeFile w p Config_zero = (decode_file w p, [CallDecodeFile p]).
Proof. done. Qed.

(** [LoadConfig] is the pipeline resolve, decode, substitute; it stops at
    the first step that fails. *)
Lemma LoadConfig_pipeline (path : string) :
  LoadConfig w path
  = let trace := if bool_decide (path = ""%string)
                 then [CallConfigFile "aiac/aiac.toml"] else [] in
    match resolve w path with
    | (p, Some e) =>
      ((Config_zero, Some (Errorf_w "failed getting default config path" e)), trace)
    | (p, None) =>
      match decode_file w p with
      | (c, Some e) =>
        ((c, Some (Errorf_w "failed loading configuration" e)),
         trace ++ [CallDecodeFile p])
      | (c, None) =>
        ((replaceEnvVars (environ w) c, None), trace ++ [CallDecodeFile p])
      end
    end.
Proof.
  unfold LoadConfig, resolve, ConfigFile, io_call. cbv zeta.
  destruct (bool_decide (path = ""%string)).
  - destruct (xdg_ConfigFile w "aiac/aiac.toml") as [p [e|]];
      unfold mbind, io_bind, mret, io_ret; [done|].
    rewrite DecodeFile_decode. by destruct (decode_file w p) as [c [e|]].
  - unfold mbind, io_bind, mret, io_ret.
    rewrite DecodeFile_decode. by destruct (decode_file w path) as [c [e|]].
Qed.

Lemma resolve_explicit (path : string) :
  path ≠ ""%string → resolve w path = (path, None).
Proof. intros H. unfold resolve. by rewrite bool_decide_eq_false_2. Qed.

Lemma resolve_fails (path p : string) e :
  resolve w path = (p, Some e) →
  path = ""%string ∧ xdg_ConfigFile w "aiac/aiac.toml" = (p, Some e).
Proof. unfold resolve. case_bool_decide; [done|]. intros [=]. Qed.

Lemma decode_missing (p : string) :
  files w !! p = None →
  decode_file w p = (Config_zero,
                Some (errorString ("open " +:+ p +:+ ": no such file or directory"))).
Proof. intros H. unfold decode_file, DecodeFile, io_call. by rewrite H. Qed.

End LoadConfig_facts.

Lemma Unwrap_Errorf_w (context : string) (e : error) :
  Unwrap (Errorf_w context e) = Some e.
Proof. done. Qed.

Lemma resolve_default `{R : MapRange} (w : World) :
  resolve w "" = xdg_ConfigFile w "aiac/aiac.toml".
Proof. done. Qed.

(** C2: [LoadConfig] returns an error exactly when resolving the default
    path fails (which needs an empty explicit path) or decoding the resolved
    file fails.  The error wraps the failing step's error under that step's
    context.  With an empty explicit path and no file at the default path,
    the error is the decoding one and the [Config] is the zero value.  With
    no error, the [Config] is the fully decoded one after the substitution
    pass: there is no third outcome. *)
Theorem C2_LoadConfig_error_cases `{R : MapRange} (w : World) (path : string)
    (conf : Config) (err : option error) :
  outcome w path = (conf, err) →
  (is_Some err ↔
     (path = ""%string ∧ is_Some (xdg_ConfigFile w "aiac/aiac.toml").2)
     ∨ (∃ p, resolve w path = (p, None) ∧ is_Some (decode_file w p).2))
  ∧ (∀ p e, resolve w path = (p, Some e) →
       path = ""%string
       ∧ conf = Config_zero
       ∧ err = Some (Errorf_w "failed getting default config path" e)
       ∧ err ≫= Unwrap = Some e)
  ∧ (∀ p c e, resolve w path = (p, None) → decode_file w p = (c, Some e) →
       err = Some (Errorf_w "failed loading configuration" e)
       ∧ err ≫= Unwrap = Some e)
  ∧ (∀ p, path = ""%string → xdg_ConfigFile w "aiac/aiac.toml" = (p, None) →
       files w !! p = None →
       conf = Config_zero
       ∧ ∃ e, err = Some (Errorf_w "failed loading configuration" e))
  ∧ (err = None →
       ∃ p c, resolve w path = (p, None) ∧ decode_file w p = (c, None)
              ∧ conf = replaceEnvVars (environ w) c).
Proof.
  unfold outcome. rewrite LoadConfig_pipeline. cbv zeta.
  destruct (resolve w path) as [p [e|]] eqn:Hresolve.
  { (* resolving the default path failed *)
    intros [= <- <-]. apply resolve_fails in Hresolve as Hpath.
    destruct Hpath as [-> Hxdg].
    split_and!.
    - split; [|by eauto]. intros _. left. by rewrite Hxdg.
    - by intros p' e' [= <- <-].
    - by intros p' c e' [=].
    - intros p' _ Hxdg'. congruence.
    - done. }
  destruct (decode_file w p) as [c [e|]] eqn:Hdecode.
  { (* decoding failed *)
    intros [= <- <-]. split_and!.
    - split; [|by eauto]. intros _. right. exists p. by rewrite Hdecode.
    - by intros p' e' [=].
    - intros p' c' e' [= <-]. rewrite Hdecode. by intros [= <- <-].
    - intros p' -> Hxdg Hfile. rewrite resolve_default, Hxdg in Hresolve.
      injection Hresolve as ->. rewrite decode_missing in Hdecode by done.
      injection Hdecode as <- <-. eauto.
    - done. }
  (* both steps succeeded *)
  intros [= <- <-]. split_and!.
  - split; [by intros [??]|].
    intros [[-> Hxdg]|[p' [[= <-] Hdec]]].
    + rewrite resolve_default in Hresolve. rewrite Hresolve in Hxdg.
      by destruct Hxdg.
    + rewrite Hdecode in Hdec. by destruct Hdec.
  - by intros p' e' [=].
  - intros p' c' e' [= <-]. by rewrite Hdecode.
  - intros p' -> Hxdg Hfile. rewrite resolve_default, Hxdg in Hresolve.
    injection Hresolve as ->. rewrite decode_missing in Hdecode by done.
    by injection Hdecode.
  - intros _. by exists p, c.
Qed.

Lemma decode_file_ext (w1 w2 : World) (p : string) :
  files w1 !! p = files w2 !! p → decode_file w1 p = decode_file w2 p.
Proof. intros H. unfold decode_file, DecodeFile, io_call. by rewrite H. Qed.

(** C3: a non-empty explicit path is the path handed to the decoder, as it
    is; decoding is the only call made (no existence check, no call to the
    base-directory resolver) and the outcome is built from decoding that
    path.  For the empty path the resolver is asked for ["aiac/aiac.toml"],
    and the path it returns is the one decoded. *)
Theorem C3_path_used `{R : MapRange} (w : World) (path : string) :
  (path ≠ ""%string →
     calls w path = [CallDecodeFile path]
     ∧ outcome w path
       = match decode_file w path with
         | (c, Some e) => (c, Some (Errorf_w "failed loading configuration" e))
         | (c, None) => (replaceEnvVars (environ w) c, None)
         end)
  ∧ (∀ p, path = ""%string → xdg_ConfigFile w "aiac/aiac.toml" = (p, None) →
       calls w path = [CallConfigFile "aiac/aiac.toml"; CallDecodeFile p]
       ∧ outcome w path
         = match decode_file w p with
           | (c, Some e) => (c, Some (Errorf_w "failed loading configuration" e))
           | (c, None) => (replaceEnvVars (environ w) c, None)
           end).
Proof.
  unfold calls, outcome. rewrite LoadConfig_pipeline. cbv zeta. split.
  - intros Hpath. rewrite resolve_explicit, bool_decide_eq_false_2 by done.
    by destruct (decode_file w path) as [c [e|]].
  - intros p -> Hxdg. rewrite resolve_default, Hxdg.
    rewrite bool_decide_eq_true_2 by done.
    by destruct (decode_file w p) as [c [e|]].
Qed.

(** C6: with an explicit path to a file holding the section
    [backends.openai] with [type="openai"] and [api_key="$MY_KEY"], and
    [MY_KEY=sk-123] in the environment, [LoadConfig] returns no error and a
    [Config] whose backend ["openai"] has the [APIKey] ["sk-123"]. *)
Theorem C6_openai_example `{R : MapRange} (w : World) (path : string) :
  path ≠ ""%string →
  files w !! path = Some (Toml.Document openai_document) →
  environ w !! "MY_KEY"%string = Some "sk-123"%string →
  ∃ conf b, outcome w path = (conf, None)
            ∧ Backends conf !! "openai"%string = Some b
            ∧ APIKey b = "sk-123"%string
            ∧ Type_ b = BackendOpenAI.
Proof.
  intros Hpath Hfile Henv. unfold outcome.
  rewrite LoadConfig_pipeline, resolve_explicit by done. cbv zeta.
  unfold decode_file, DecodeFile, io_call. rewrite Hfile.
  destruct (Decode openai_document Config_zero) as [c [e|]] eqn:Hdecode;
    [by vm_compute in Hdecode|].
  assert (Backends c !! "openai"%string
          = Some (mkBackendConfig "openai" "" "" "$MY_KEY" "" "" "" ∅)) as Hc.
  { injection Hdecode as <-. reflexivity. }
  cbn [fst snd]. eexists _, _. split; [done|]. split.
  { rewrite replaceEnvVars_lookup, Hc. cbn [fmap option_fmap option_map].
    by rewrite replaceEnvVars_body_fields. }
  split; [|done].
  unfold substituted_profile, substitute_field, ExpandEnv. cbn [APIKey].
  rewrite bool_decide_eq_false_2 by done.
  rewrite Expand_plain by done. unfold Getenv. by rewrite Henv.
Qed.


(* ------------------------------------------------------------------ *)
(** ** Facts about decoding *)
(* ------------------------------------------------------------------ *)

Section Decode_facts.

Lemma has_key_cons key k v (t : list (string * Toml.value)) :
  has_key ((k, v) :: t) key = false → key ≠ k ∧ has_key t key = false.
Proof.
  unfold has_key. rewrite !bool_decide_eq_false, fmap_cons, not_elem_of_cons.
  done.
Qed.

Lemma field_is_zero_zero f : field_is_zero f BackendConfig_zero.
Proof. by destruct f. Qed.

Lemma assign_string_other {S : Type} (P : S → Prop) key v set (x x' : S) e :
  (∀ s, P x → P (set s x)) →
  assign_string key v set x = (x', e) → P x → P x'.
Proof.
  intros Hset. unfold assign_string.
  destruct v; intros [= <- <-]; auto.
Qed.

(** An entry of a section changes no field but the one it is tagged for. *)
Lemma unify_BackendConfig_entry_other f key v b b' e :
  key ≠ field_tag f →
  unify_BackendConfig_entry key v b = (b', e) →
  field_is_zero f b → field_is_zero f b'.
Proof.
  intros Hkey. unfold unify_BackendConfig_entry.
  repeat case_bool_decide; try subst key;
    try (apply assign_string_other; intros s; by destruct f).
  - destruct v; try (by intros [= <- <-]).
    destruct (unify_headers _ _) as [m err]. intros [= <- <-]. by destruct f.
  - by intros [= <- <-].
Qed.

Lemma unify_BackendConfig_absent f (t : list (string * Toml.value)) : ∀ b b' e,
  has_key t (field_tag f) = false →
  unify_BackendConfig t b = (b', e) →
  field_is_zero f b → field_is_zero f b'.
Proof.
  induction t as [|[key v] t IH]; intros b b' e Hkey; cbn [unify_BackendConfig].
  { by intros [= <- <-]. }
  apply has_key_cons in Hkey as [Hne Hkey].
  destruct (unify_BackendConfig_entry key v b) as [b1 [e1|]] eqn:Hentry.
  - intros [= <- <-]. by eapply unify_BackendConfig_entry_other.
  - intros Hrest Hzero. eapply IH; [done..|].
    by eapply unify_BackendConfig_entry_other.
Qed.

Lemma tables_at_cons key k v (t : list (string * Toml.value)) :
  tables_at key ((k, v) :: t)
  = match v with
    | Toml.VTable sub => if bool_decide (k = key) then [sub] else []
    | _ => []
    end ++ tables_at key t.
Proof. done. Qed.

(** Decoding the table [backends]: if no section of [name] mentions the tag
    of [f], the profile stored under [name] keeps [f] at its zero value. *)
Lemma unify_Backends_absent f name (t : list (string * Toml.value)) : ∀ m m' e,
  forallb (λ section, negb (has_key section (field_tag f))) (tables_at name t) = true →
  unify_Backends t m = (m', e) →
  (∀ b, m !! name = Some b → field_is_zero f b) →
  (∀ b, m' !! name = Some b → field_is_zero f b).
Proof.
  induction t as [|[n v] t IH]; intros m m' e Habsent; cbn [unify_Backends].
  { by intros [= <- <-]. }
  rewrite tables_at_cons, forallb_app in Habsent.
  apply andb_true_iff in Habsent as [Hhere Hrest].
  assert (∀ section b e', v = Toml.VTable section →
            unify_BackendConfig section BackendConfig_zero = (b, e') →
            (∀ b0, m !! name = Some b0 → field_is_zero f b0) →
            ∀ b0, <[n := b]> m !! name = Some b0 → field_is_zero f b0) as Hins.
  { intros section b e' -> Hsec Hm b0.
    destruct (decide (n = name)) as [->|Hne].
    - rewrite lookup_insert_eq. intros [= <-].
      rewrite bool_decide_eq_true_2 in Hhere by done.
      cbn in Hhere. rewrite andb_true_r in Hhere.
      apply negb_true_iff in Hhere.
      eapply unify_BackendConfig_absent; [done..|]. apply field_is_zero_zero.
    - rewrite lookup_insert_ne by done. apply Hm. }
  destruct v as [s|z|b|vs|section]; try (by intros [= <- <-]).
  destruct (unify_BackendConfig section BackendConfig_zero) as [b [e'|]] eqn:Hsec.
  - intros [= <- <-] Hm. by eapply Hins.
  - intros Hdec Hm. eapply IH; [done..|]. by eapply Hins.
Qed.

Lemma sections_of_cons name k v (doc : list (string * Toml.value)) :
  sections_of ((k, v) :: doc) name
  = match v with
    | Toml.VTable sub =>
      if bool_decide (k = "backends"%string) then tables_at name sub else []
    | _ => []
    end ++ sections_of doc name.
Proof.
  unfold sections_of. rewrite tables_at_cons, flat_map_app. f_equal.
  destruct v; try done. case_bool_decide; [|done]. cbn. by rewrite app_nil_r.
Qed.

Lemma Decode_absent f name (doc : list (string * Toml.value)) : ∀ conf conf' e,
  field_absent doc name f = true →
  Decode doc conf = (conf', e) →
  (∀ b, Backends conf !! name = Some b → field_is_zero f b) →
  (∀ b, Backends conf' !! name = Some b → field_is_zero f b).
Proof.
  unfold field_absent.
  induction doc as [|[key v] doc IH]; intros conf conf' e Habsent; cbn [Decode].
  { by intros [= <- <-]. }
  rewrite sections_of_cons, forallb_app in Habsent.
  apply andb_true_iff in Habsent as [Hhere Hrest].
  assert (∀ c1 e1, unify_Config_entry key v conf = (c1, e1) →
            (∀ b, Backends conf !! name = Some b → field_is_zero f b) →
            ∀ b, Backends c1 !! name = Some b → field_is_zero f b) as Hentry.
  { intros c1 e1. unfold unify_Config_entry.
    destruct (bool_decide_reflect (key = "backends"%string)) as [->|Hkey].
    - destruct v as [s|z|b|vs|t]; try (by intros [= <- <-]).
      destruct (unify_Backends t (Backends conf)) as [m err] eqn:Hm.
      intros [= <- <-]. cbn [Backends set_Backends].
      by eapply unify_Backends_absent.
    - case_bool_decide; [|by intros [= <- <-]].
      unfold assign_string. by destruct v; intros [= <- <-]. }
  destruct (unify_Config_entry key v conf) as [c1 [e1|]] eqn:Hc1.
  - intros [= <- <-]. by eapply Hentry.
  - intros Hdec Hconf. eapply IH; [done..|]. by eapply Hentry.
Qed.

(** A top-level key that is absent leaves its field alone. *)
Lemma unify_Config_entry_other key v conf conf' e :
  unify_Config_entry key v conf = (conf', e) →
  (key ≠ "default_backend"%string → DefaultBackend conf' = DefaultBackend conf)
  ∧ (key ≠ "backends"%string → Backends conf' = Backends conf).
Proof.
  unfold unify_Config_entry.
  destruct (bool_decide_reflect (key = "backends"%string)) as [->|Hkey].
  - destruct v as [s|z|b|vs|t]; try (by intros [= <- <-]).
    destruct (unify_Backends t (Backends conf)) as [m err].
    by intros [= <- <-].
  - case_bool_decide as Hkey'; [|by intros [= <- <-]].
    unfold assign_string. by destruct v; intros [= <- <-].
Qed.

Lemma Decode_top_level (doc : list (string * Toml.value)) : ∀ conf conf' e,
  Decode doc conf = (conf', e) →
  (has_key doc "default_backend" = false → DefaultBackend conf' = DefaultBackend conf)
  ∧ (has_key doc "backends" = false → Backends conf' = Backends conf).
Proof.
  induction doc as [|[key v] doc IH]; intros conf conf' e; cbn [Decode].
  { by intros [= <- <-]. }
  destruct (unify_Config_entry key v conf) as [c1 [e1|]] eqn:Hc1;
    apply unify_Config_entry_other in Hc1 as [Hd Hb].
  - intros [= <- <-].
    split; intros [Hne _]%has_key_cons; auto.
  - intros [Hd' Hb']%IH.
    split; intros [Hne Hkey]%has_key_cons.
    + rewrite Hd' by done. auto.
    + rewrite Hb' by done. auto.
Qed.

(** *** No key is required: whether decoding fails depends on the entries
    that are present, one by one, and not on what was decoded before. *)

Lemma unify_headers_error (t : list (string * Toml.value)) : ∀ m m',
  (unify_headers t m).2 = (unify_headers t m').2.
Proof.
  induction t as [|[k v] t IH]; intros m m'; [done|].
  destruct v; cbn [unify_headers]; first [apply IH | done].
Qed.

Lemma unify_BackendConfig_entry_error key v b b' :
  (unify_BackendConfig_entry key v b).2 = (unify_BackendConfig_entry key v b').2.
Proof.
  unfold unify_BackendConfig_entry, assign_string.
  repeat case_bool_decide; try by destruct v.
  destruct v as [| | | |t]; try done.
  pose proof (unify_headers_error t (ExtraHeaders b) (ExtraHeaders b')) as Herr.
  by do 2 destruct (unify_headers t _).
Qed.

Lemma unify_BackendConfig_sublist (t' t : list (string * Toml.value)) :
  sublist t' t → ∀ b b',
  (unify_BackendConfig t b).2 = None → (unify_BackendConfig t' b').2 = None.
Proof.
  induction 1 as [|[key v] t' t Hsub IH|[key v] t' t Hsub IH]; intros b b';
    cbn [unify_BackendConfig]; [done| |].
  - pose proof (unify_BackendConfig_entry_error key v b b') as Herr.
    destruct (unify_BackendConfig_entry key v b) as [b1 [e1|]]; [done|].
    destruct (unify_BackendConfig_entry key v b') as [b1' [e1'|]]; [done|].
    apply IH.
  - destruct (unify_BackendConfig_entry key v b) as [b1 [e1|]]; [done|].
    apply IH.
Qed.

Lemma unify_Backends_error (t : list (string * Toml.value)) : ∀ m m',
  (unify_Backends t m).2 = (unify_Backends t m').2.
Proof.
  induction t as [|[name v] t IH]; intros m m'; [done|].
  destruct v as [| | | |section]; cbn [unify_Backends]; try done.
  destruct (unify_BackendConfig section _) as [b [e|]]; [done|]. apply IH.
Qed.

Lemma unify_Config_entry_error key v conf conf' :
  (unify_Config_entry key v conf).2 = (unify_Config_entry key v conf').2.
Proof.
  unfold unify_Config_entry, assign_string.
  repeat case_bool_decide; try by destruct v.
  destruct v as [| | | |t]; try done.
  pose proof (unify_Backends_error t (Backends conf) (Backends conf')) as Herr.
  by do 2 destruct (unify_Backends t _).
Qed.

Lemma Decode_sublist (doc' doc : list (string * Toml.value)) :
  sublist doc' doc → ∀ conf conf',
  (Decode doc conf).2 = None → (Decode doc' conf').2 = None.
Proof.
  induction 1 as [|[key v] doc' doc Hsub IH|[key v] doc' doc Hsub IH];
    intros conf conf'; cbn [Decode]; [done| |].
  - pose proof (unify_Config_entry_error key v conf conf') as Herr.
    destruct (unify_Config_entry key v conf) as [c1 [e1|]]; [done|].
    destruct (unify_Config_entry key v conf') as [c1' [e1'|]]; [done|].
    apply IH.
  - destruct (unify_Config_entry key v conf) as [c1 [e1|]]; [done|].
    apply IH.
Qed.

End Decode_facts.

(** C7: when a document decodes, every field of [Config] and of each
    [BackendConfig] that the document does not mention holds its zero value
    (the empty string, the empty map).  No key is required: a document that
    decodes still decodes after any of its top-level entries are removed,
    a section after any of its entries are removed, and the empty document
    decodes to the zero [Config]. *)
Theorem C7_absent_fields_zero :
  (∀ (doc : list (string * Toml.value)) (conf : Config),
     Decode doc Config_zero = (conf, None) →
     (has_key doc "default_backend" = false → DefaultBackend conf = ""%string)
     ∧ (has_key doc "backends" = false → Backends conf = ∅)
     ∧ (∀ name b f, Backends conf !! name = Some b →
          field_absent doc name f = true → field_is_zero f b))
  ∧ (∀ doc doc' : list (string * Toml.value),
       sublist doc' doc →
       (Decode doc Config_zero).2 = None → (Decode doc' Config_zero).2 = None)
  ∧ (∀ section section' : list (string * Toml.value),
       sublist section' section →
       (unify_BackendConfig section BackendConfig_zero).2 = None →
       (unify_BackendConfig section' BackendConfig_zero).2 = None)
  ∧ Decode [] Config_zero = (Config_zero, None).
Proof.
  split_and!; [|by eauto using Decode_sublist
               |by eauto using unify_BackendConfig_sublist|done].
  intros doc conf Hdecode. split_and!.
  - intros Hkey. by apply Decode_top_level in Hdecode as [-> _].
  - intros Hkey. by apply Decode_top_level in Hdecode as [_ ->].
  - intros name b f Hb Habsent.
    eapply Decode_absent; [done..| |done]. by intros b0 Hb0.
Qed.

(* ------------------------------------------------------------------ *)
(** ** The statements at sample inputs *)
(* ------------------------------------------------------------------ *)

Lemma C2_witness :
  ∃ conf err, outcome bare_world "" = (conf, err)
    ∧ conf = Config_zero
    ∧ ∃ e, err = Some (Errorf_w "failed loading configuration" e).
Proof.
  eexists _, _. split; [reflexivity|].
  destruct (C2_LoadConfig_error_cases bare_world "" _ _ eq_refl)
    as (_ & _ & _ & Hmissing & _).
  exact (Hmissing _ eq_refl eq_refl eq_refl).
Defined.

Lemma C3_witness :
  calls openai_world "/etc/aiac.toml" = [CallDecodeFile "/etc/aiac.toml"]
  ∧ calls bare_world ""
    = [CallConfigFile "aiac/aiac.toml";
       CallDecodeFile "/home/user/.config/aiac/aiac.toml"].
Proof.
  split.
  - apply (proj1 (C3_path_used openai_world "/etc/aiac.toml")). discriminate.
  - apply (proj2 (C3_path_used bare_world "") _ eq_refl eq_refl).
Defined.

Lemma C6_witness :
  ∃ conf b, outcome openai_world "/etc/aiac.toml" = (conf, None)
    ∧ Backends conf !! "openai"%string = Some b
    ∧ APIKey b = "sk-123"%string
    ∧ Type_ b = BackendOpenAI.
Proof.
  apply C6_openai_example; [discriminate|reflexivity|reflexivity].
Defined.

Lemma C7_witness :
  ∃ conf, Decode openai_document Config_zero = (conf, None)
    ∧ DefaultBackend conf = ""%string
    ∧ ∀ b, Backends conf !! "openai"%string = Some b →
           field_is_zero FURL b ∧ field_is_zero FExtraHeaders b.
Proof.
  eexists. split; [reflexivity|].
  destruct C7_absent_fields_zero as [Habsent _].
  destruct (Habsent openai_document _ eq_refl) as (Hdefault & _ & Hfield).
  split; [exact (Hdefault eq_refl)|].
  intros b Hb. split.
  - exact (Hfield "openai"%string b FURL Hb eq_refl).
  - exact (Hfield "openai"%string b FExtraHeaders Hb eq_refl).
Defined.


(* ------------------------------------------------------------------ *)
(** ** Further facts about [replaceEnvVar] *)
(* ------------------------------------------------------------------ *)

Section Expand_more.
Context (mapping : string → string).

Lemma of_string_app (a b : string) : of_string (a +:+ b) = of_string a ++ of_string b.
Proof.
  unfold of_string. induction a as [|c a IH]; [done|].
  change (String c a +:+ b) with (String c (a +:+ b)).
  cbn [list_ascii_of_string app]. by f_equal.
Qed.

Lemma to_string_app (a b : bytes) : to_string (a ++ b) = to_string a +:+ to_string b.
Proof.
  unfold to_string. induction a as [|c a IH]; [done|].
  cbn [string_of_list_ascii app].
  change (String c ?x +:+ ?y) with (String c (x +:+ y)). by f_equal.
Qed.

Lemma of_string_length (s : string) : length (of_string s) = String.length s.
Proof.
  unfold of_string. induction s as [|c s IH]; [done|].
  cbn [String.length list_ascii_of_string length]. by f_equal.
Qed.




Lemma isShellSpecialVar_not_brace c :
  isShellSpecialVar c = true → Ascii.eqb c "{" = false.
Proof. intros H. destruct (Ascii.eqb_spec c "{") as [->|]; done. Qed.

Lemma getShellName_special c (rest : bytes) :
  isShellSpecialVar c = true → getShellName (c :: rest) = ([c], 1).
Proof.
  intros H. unfold getShellName.
  by rewrite (isShellSpecialVar_not_brace c H), H.
Qed.

(** [Expand] sees its mapping only through the values it returns. *)
Lemma expand_suffix_ext (m1 m2 : string → string) fuel : ∀ t : bytes,
  (∀ name, m1 name = m2 name) →
  expand_suffix fuel m1 t = expand_suffix fuel m2 t.
Proof.
  induction fuel as [|fuel IH]; intros t Hext; [done|].
  destruct t as [|c rest]; [done|]. cbn [expand_suffix].
  assert (expand_ref m1 rest = expand_ref m2 rest) as ->.
  { unfold expand_ref. destruct (getShellName rest) as [name w].
    by rewrite Hext. }
  destruct (_ && _).
  - destruct (expand_ref m2 rest) as [out w]. by rewrite IH.
  - by rewrite IH.
Qed.

Lemma Expand_ext (m1 m2 : string → string) (s : string) :
  (∀ name, m1 name = m2 name) → Expand s m1 = Expand s m2.
Proof.
  intros Hext. rewrite !Expand_bytes. unfold expand_bytes.
  by rewrite (expand_suffix_ext m1 m2).
Qed.

End Expand_more.



(** X3: text before the first dollar sign is copied as it is, and what
    follows it is expanded as if it stood alone. *)
Theorem replaceEnvVar_text_prefix (env : gmap string string) (text rest : string) :
  "$"%char ∉ of_string text →
  replaceEnvVar env (text +:+ rest) = text +:+ replaceEnvVar env rest.
Proof.
  intros Hnotin. unfold replaceEnvVar, ExpandEnv. rewrite !Expand_bytes.
  rewrite of_string_app, expand_bytes_text by done.
  by rewrite to_string_app, to_of_string.
Qed.

Lemma replaceEnvVar_text_prefix_witness :
  replaceEnvVar {[ "HOST"%string := "example.org"%string ]}
    ("https://" +:+ "$HOST/v1")
  = ("https://" +:+ replaceEnvVar {[ "HOST"%string := "example.org"%string ]} "$HOST/v1").
Proof.
  apply replaceEnvVar_text_prefix. compute_done.
Defined.

(** X4: with no variable set, expansion never makes a string longer, and
    a string with variable syntax comes out strictly shorter: every
    reference and every malformed reference is dropped. *)
Theorem replaceEnvVar_unset_shrinks (s : string) :
  String.length (replaceEnvVar ∅ s) ≤ String.length s
  ∧ (has_var_syntax s = true →
       String.length (replaceEnvVar ∅ s) < String.length s).
Proof.
  unfold replaceEnvVar, ExpandEnv. rewrite Expand_bytes.
  rewrite <-!of_string_length, of_to_string. unfold expand_bytes. split.
  - apply expand_suffix_unset_length, Getenv_empty.
  - apply expand_suffix_unset_shorter; [apply Getenv_empty|lia].
Qed.

Lemma replaceEnvVar_unset_shrinks_witness :
  String.length (replaceEnvVar ∅ "Bearer ${TOKEN}") < String.length "Bearer ${TOKEN}".
Proof.
  apply (proj2 (replaceEnvVar_unset_shrinks "Bearer ${TOKEN}")). reflexivity.
Defined.

(** X5: a variable set to the empty string and a variable that is not set
    cannot be told apart by the expansion. *)
Theorem replaceEnvVar_empty_is_unset (env : gmap string string) (key s : string) :
  replaceEnvVar (<[key := ""%string]> env) s = replaceEnvVar (delete key env) s.
Proof.
  unfold replaceEnvVar, ExpandEnv. apply Expand_ext. intros name.
  unfold Getenv. destruct (decide (name = key)) as [->|Hne].
  - by rewrite lookup_insert_eq, lookup_delete_eq.
  - by rewrite lookup_insert_ne, lookup_delete_ne.
Qed.

(* ------------------------------------------------------------------ *)
(** ** Expanding twice *)
(* ------------------------------------------------------------------ *)

Section Expand_settled.
Context (mapping : string → string).
Context (Hvalues : ∀ name, "$"%char ∉ of_string (mapping name)).

Lemma has_var_syntax_bytes_app (v t : bytes) :
  "$"%char ∉ v → has_var_syntax_bytes (v ++ t) = has_var_syntax_bytes t.
Proof.
  induction v as [|c v IH]; [done|]. intros Hnotin.
  apply not_elem_of_cons in Hnotin as [Hc Hv]. cbn [app has_var_syntax_bytes].
  replace (Ascii.eqb c "$") with false by (symmetry; by apply Ascii.eqb_neq).
  cbn [andb orb]. by apply IH.
Qed.

Lemma expand_ref_dollar_free c (rest : bytes) :
  starts_reference c = true → "$"%char ∉ (expand_ref mapping (c :: rest)).1.
Proof.
  intros Href. pose proof (getShellName_reference c rest Href) as Hw.
  unfold expand_ref. destruct (getShellName (c :: rest)) as [name w].
  cbn [fst snd] in *.
  destruct (bool_decide_reflect (name = [])); cbn [andb].
  - rewrite bool_decide_eq_true_2 by done. apply not_elem_of_nil.
  - apply Hvalues.
Qed.

(** What [Expand] returns holds no variable syntax when the values it
    inserts hold no dollar sign: a dollar sign it leaves in place is
    followed by a byte that begins no reference, or by nothing. *)
Lemma expand_suffix_settled fuel : ∀ t : bytes,
  length t ≤ fuel → has_var_syntax_bytes (expand_suffix fuel mapping t) = false.
Proof.
  induction fuel as [|fuel IH]; intros t Hfuel.
  { destruct t; [done|]. cbn in Hfuel. lia. }
  destruct t as [|c rest]; [done|]. cbn [length] in Hfuel. cbn [expand_suffix].
  destruct (Ascii.eqb c "$" && bool_decide (rest ≠ [])) eqn:Hdollar.
  - destruct rest as [|c1 rest']; [by rewrite andb_false_r in Hdollar|].
    destruct (starts_reference c1) eqn:Href.
    + pose proof (expand_ref_dollar_free c1 rest' Href) as Hout.
      pose proof (expand_ref_width mapping (c1 :: rest')) as Hwidth.
      destruct (expand_ref mapping (c1 :: rest')) as [out w]. cbn [fst snd] in *.
      rewrite has_var_syntax_bytes_app by done.
      apply IH. rewrite length_drop. lia.
    + unfold expand_ref. rewrite getShellName_no_reference by done.
      cbn [fst snd drop andb]. rewrite bool_decide_eq_true_2 by done.
      rewrite bool_decide_eq_false_2 by lia. cbn [app].
      assert (Ascii.eqb c1 "$" = false) as Hc1.
      { destruct (Ascii.eqb_spec c1 "$") as [->|]; done. }
      cbn [length] in Hfuel. destruct fuel as [|fuel']; [lia|].
      pose proof (IH (c1 :: rest') ltac:(cbn [length]; lia)) as Hrest.
      cbn [expand_suffix] in *. rewrite Hc1 in *. cbn [andb] in *.
      cbn [app]. cbn [has_var_syntax_bytes head from_option] in *.
      rewrite Href, andb_false_r. exact Hrest.
  - cbn [has_var_syntax_bytes]. rewrite IH by lia. rewrite orb_false_r.
    apply andb_false_iff in Hdollar as [->|Hrest]; [done|].
    apply bool_decide_eq_false in Hrest.
    assert (rest = []) as -> by (by destruct rest; [|exfalso; apply Hrest]).
    destruct fuel; cbn; by rewrite andb_false_r.
Qed.

Lemma Expand_settled (s : string) : has_var_syntax (Expand s mapping) = false.
Proof.
  rewrite Expand_bytes. unfold has_var_syntax. rewrite of_to_string.
  by apply expand_suffix_settled.
Qed.

Lemma Expand_idempotent (s : string) :
  Expand (Expand s mapping) mapping = Expand s mapping.
Proof. apply Expand_no_var_syntax, Expand_settled. Qed.

End Expand_settled.

(* ------------------------------------------------------------------ *)
(** ** Further facts about the substitution pass *)
(* ------------------------------------------------------------------ *)

Section replaceEnvVars_more.
Context (env : gmap string string).

Lemma substitute_field_unguarded (s : string) :
  substitute_field env s = replaceEnvVar env s.
Proof. unfold substitute_field. by case_bool_decide; subst. Qed.

Lemma substitute_field_plain (s : string) :
  has_var_syntax s = false → substitute_field env s = s.
Proof.
  intros Hplain. unfold substitute_field, ExpandEnv.
  case_bool_decide; [done|]. by apply Expand_no_var_syntax.
Qed.

Lemma substituted_profile_plain (b : BackendConfig) :
  profile_plain b = true → substituted_profile env b = b.
Proof.
  unfold profile_plain. rewrite !andb_true_iff, !negb_true_iff.
  intros [[[[[Hkey Hprof] Hreg] Hurl] Hmodel] Hver].
  destruct b. unfold substituted_profile. cbn in *.
  by rewrite !substitute_field_plain.
Qed.

Lemma Getenv_dollar_free (name : string) :
  dollar_free env → "$"%char ∉ of_string (Getenv env name).
Proof.
  intros Hfree. unfold Getenv. destruct (env !! name) as [value|] eqn:Hvalue.
  - exact (Hfree name value Hvalue).
  - apply not_elem_of_nil.
Qed.

Lemma substitute_field_idempotent (s : string) :
  dollar_free env →
  substitute_field env (substitute_field env s) = substitute_field env s.
Proof.
  intros Hfree. apply substitute_field_plain.
  unfold substitute_field. case_bool_decide; [done|].
  apply Expand_settled. intros name. by apply Getenv_dollar_free.
Qed.

Lemma substituted_profile_idempotent (b : BackendConfig) :
  dollar_free env →
  substituted_profile env (substituted_profile env b) = substituted_profile env b.
Proof.
  intros Hfree. unfold substituted_profile. cbn.
  by rewrite !substitute_field_idempotent.
Qed.

End replaceEnvVars_more.

(** X6: the result of the pass does not depend on the order in which the
    loop visits the entries of [Backends]. *)
Theorem replaceEnvVars_order_irrelevant (R1 R2 : MapRange)
    (env : gmap string string) (conf : Config) :
  @replaceEnvVars R1 env conf = @replaceEnvVars R2 env conf.
Proof.
  by rewrite (replaceEnvVars_fmap _ (R := R1)), (replaceEnvVars_fmap _ (R := R2)).
Qed.

(** X7: the six tests for a non-empty field change nothing in the result:
    the pass returns what substituting all six fields of every profile
    without testing them would return, an empty field expanding to itself. *)
Theorem replaceEnvVars_guards_redundant `{R : MapRange}
    (env : gmap string string) (conf : Config) :
  replaceEnvVars env conf
  = mkConfig (substitute_all env <$> Backends conf) (DefaultBackend conf).
Proof.
  rewrite replaceEnvVars_fmap. f_equal.
  apply map_fmap_ext. intros name b _.
  rewrite replaceEnvVars_body_fields. unfold substituted_profile, substitute_all.
  by rewrite !substitute_field_unguarded.
Qed.

(** X8: on a configuration in which no profile has variable syntax in its
    six substituted fields (one without backends among them), the pass
    returns the configuration it was given, in every environment. *)
Theorem replaceEnvVars_plain_identity `{R : MapRange}
    (env : gmap string string) (conf : Config) :
  map_Forall (λ _ b, profile_plain b = true) (Backends conf) →
  replaceEnvVars env conf = conf.
Proof.
  intros Hplain. rewrite replaceEnvVars_fmap. destruct conf as [backends name].
  cbn in *. f_equal. apply map_eq. intros k. rewrite lookup_fmap.
  destruct (backends !! k) as [b|] eqn:Hb; [|done]. cbn.
  rewrite replaceEnvVars_body_fields, substituted_profile_plain; [done|].
  exact (Hplain k b Hb).
Qed.

Lemma replaceEnvVars_plain_identity_witness :
  replaceEnvVars {[ "HOME"%string := "/root"%string ]}
    (mkConfig {[ "local"%string :=
                   mkBackendConfig "ollama" "" "" "" "" "http://localhost:11434"
                     "llama3" {[ "X-Token"%string := "$HOME"%string ]} ]}
       "local")
  = mkConfig {[ "local"%string :=
                   mkBackendConfig "ollama" "" "" "" "" "http://localhost:11434"
                     "llama3" {[ "X-Token"%string := "$HOME"%string ]} ]}
       "local".
Proof.
  apply replaceEnvVars_plain_identity.
  apply map_Forall_singleton. reflexivity.
Defined.

(** X9: when no value of the environment holds a dollar sign, running the
    pass a second time changes nothing. *)
Theorem replaceEnvVars_idempotent `{R : MapRange}
    (env : gmap string string) (conf : Config) :
  dollar_free env →
  replaceEnvVars env (replaceEnvVars env conf) = replaceEnvVars env conf.
Proof.
  intros Hfree. rewrite !replaceEnvVars_fmap. cbn [Backends DefaultBackend].
  f_equal. rewrite <-map_fmap_compose. apply map_fmap_ext. intros name b _.
  cbn. rewrite !replaceEnvVars_body_fields.
  by apply substituted_profile_idempotent.
Qed.

Lemma replaceEnvVars_idempotent_witness :
  let env : gmap string string := {[ "MY_KEY"%string := "sk-123"%string ]} in
  let conf := mkConfig {[ "openai"%string :=
                            mkBackendConfig "openai" "" "" "$MY_KEY" "" "" "" ∅ ]} "" in
  replaceEnvVars env (replaceEnvVars env conf) = replaceEnvVars env conf.
Proof.
  intros env conf. apply replaceEnvVars_idempotent.
  apply map_Forall_singleton. compute_done.
Defined.

(** A value that holds a reference is expanded by a second pass: the
    condition on the environment is needed. *)
Example replaceEnvVar_twice :
  let env : gmap string string :=
    {[ "A"%string := "$B"%string; "B"%string := "x"%string ]} in
  replaceEnvVar env "$A" = "$B"%string
  ∧ replaceEnvVar env (replaceEnvVar env "$A") = "x"%string.
Proof. by vm_compute. Qed.

(** X10: profiles are substituted one by one: storing a profile under a
    name before the pass changes the result under that name only, to the
    loop body's result on the stored profile; deleting a name before the
    pass deletes it from the result and changes nothing else. *)
Theorem replaceEnvVars_insert_delete `{R : MapRange}
    (env : gmap string string) (conf : Config) (name : string) (b : BackendConfig) :
  Backends (replaceEnvVars env (set_Backends (<[name := b]> (Backends conf)) conf))
    = <[name := replaceEnvVars_body env b]> (Backends (replaceEnvVars env conf))
  ∧ Backends (replaceEnvVars env (set_Backends (delete name (Backends conf)) conf))
    = delete name (Backends (replaceEnvVars env conf)).
Proof.
  rewrite !replaceEnvVars_fmap. cbn [Backends set_Backends]. split.
  - apply fmap_insert.
  - apply fmap_delete.
Qed.

(* ------------------------------------------------------------------ *)
(** ** Further facts about [LoadConfig] *)
(* ------------------------------------------------------------------ *)

(** X11: when the explicit path is empty and the base-directory resolver
    fails, [LoadConfig] returns at once: the zero [Config], the resolver's
    error under the context of that step, and no call to the decoder, so no
    file is opened. *)
Theorem LoadConfig_resolver_failure `{R : MapRange} (w : World)
    (p : string) (e : error) :
  xdg_ConfigFile w "aiac/aiac.toml" = (p, Some e) →
  LoadConfig w ""
  = ((Config_zero, Some (Errorf_w "failed getting default config path" e)),
     [CallConfigFile "aiac/aiac.toml"]).
Proof.
  intros Hxdg. rewrite LoadConfig_pipeline. cbv zeta.
  by rewrite resolve_default, Hxdg.
Qed.

Lemma LoadConfig_resolver_failure_witness :
  LoadConfig other_world ""
  = ((Config_zero,
      Some (Errorf_w "failed getting default config path"
              (errorString "no home directory"))),
     [CallConfigFile "aiac/aiac.toml"]).
Proof. exact (LoadConfig_resolver_failure other_world "" _ eq_refl). Defined.

Lemma prefix_append (s x : string) : String.prefix s (s +:+ x) = true.
Proof.
  induction s as [|c s IH]; [by destruct x|].
  change (String c s +:+ x) with (String c (s +:+ x)). cbn [String.prefix].
  by destruct (ascii_dec c c).
Qed.

Lemma Error_Errorf_w (context : string) (e : error) :
  Error (Errorf_w context e) = (context +:+ ": ") +:+ Error e.
Proof.
  unfold Errorf_w. cbn [Error]. induction context as [|c context IH]; [done|].
  change (String c context +:+ ?x) with (String c (context +:+ x)).
  by rewrite IH.
Qed.

(** X13: the message of the error returned by [LoadConfig] tells the
    failing step: it begins with the context of exactly one of the two
    steps, that of the resolver only when the explicit path is empty and the
    resolver failed, that of the decoder only when decoding the resolved
    path failed. *)
Theorem LoadConfig_error_message `{R : MapRange} (w : World) (path : string)
    (conf : Config) (err : error) :
  outcome w path = (conf, Some err) →
  (String.prefix "failed getting default config path: " (Error err) = true
   ∧ String.prefix "failed loading configuration: " (Error err) = false
   ∧ path = ""%string
   ∧ is_Some (xdg_ConfigFile w "aiac/aiac.toml").2)
  ∨ (String.prefix "failed loading configuration: " (Error err) = true
     ∧ String.prefix "failed getting default config path: " (Error err) = false
     ∧ ∃ p, resolve w path = (p, None) ∧ is_Some (decode_file w p).2).
Proof.
  unfold outcome. rewrite LoadConfig_pipeline. cbv zeta.
  destruct (resolve w path) as [p [e|]] eqn:Hresolve.
  - intros [= <- <-]. left. apply resolve_fails in Hresolve as [-> Hxdg].
    rewrite Hxdg, Error_Errorf_w.
    split_and!; [apply prefix_append|reflexivity|done|by eexists].
  - destruct (decode_file w p) as [c [e|]] eqn:Hdecode; [|done].
    intros [= <- <-]. right. rewrite Error_Errorf_w.
    split_and!; [apply prefix_append|reflexivity|].
    exists p. by rewrite Hdecode.
Qed.

Lemma LoadConfig_error_message_witness :
  ∃ err, (outcome bare_world "").2 = Some err
    ∧ String.prefix "failed loading configuration: " (Error err) = true.
Proof.
  eexists. split; [reflexivity|].
  destruct (LoadConfig_error_message bare_world "" _ _ eq_refl)
    as [(_ & Hfalse & _)|(Htrue & _)].
  - discriminate Hfalse.
  - exact Htrue.
Defined.

(* ------------------------------------------------------------------ *)
(** ** The order in which the decoder visits a table *)
(* ------------------------------------------------------------------ *)


Lemma same_table_keys (t t' : list (string * Toml.value)) :
  same_table t t' → t.*1 ≡ₚ t'.*1.
Proof.
  induction 1 as [|key v t t' _ IH|key sub sub' t t' _ _ _ IH
                 |[k1 v1] [k2 v2] t|t1 t2 t3 _ IH1 _ IH2]; cbn.
  - done.
  - by rewrite IH.
  - by rewrite IH.
  - apply perm_swap.
  - by rewrite IH1.
Qed.

Lemma unique_keys_cons key v (t : list (string * Toml.value)) :
  unique_keys ((key, v) :: t) →
  (key ∉ t.*1) ∧ unique_keys t ∧ (∀ sub, v = Toml.VTable sub → unique_keys sub).
Proof.
  inversion 1 as [|key' sub t' Hkey Hsub Ht|key' v' t' Hkey Hv Ht]; subst.
  - split_and!; [done..|]. by intros sub' [= <-].
  - split_and!; [done..|]. intros sub ->. by destruct (Hv sub).
Qed.

Lemma unique_keys_build key v (t : list (string * Toml.value)) :
  key ∉ t.*1 → unique_keys t → (∀ sub, v = Toml.VTable sub → unique_keys sub) →
  unique_keys ((key, v) :: t).
Proof.
  intros Hkey Ht Hv. destruct v as [s|n|b|vs|sub];
    try (by apply unique_other).
  apply unique_table; auto.
Qed.

Lemma same_table_unique (t t' : list (string * Toml.value)) :
  same_table t t' → unique_keys t → unique_keys t'.
Proof.
  induction 1 as [|key v t t' Hsame IH|key sub sub' t t' Hsub IHsub Hsame IH
                 |[k1 v1] [k2 v2] t|t1 t2 t3 _ IH1 _ IH2]; intros Hunique.
  - done.
  - apply unique_keys_cons in Hunique as (Hkey & Ht & Hv).
    apply unique_keys_build; [|auto..].
    by rewrite <-(same_table_keys t t').
  - apply unique_keys_cons in Hunique as (Hkey & Ht & Hv).
    apply unique_table; [|auto..].
    by rewrite <-(same_table_keys t t').
  - apply unique_keys_cons in Hunique as (Hk1 & Hrest & Hv1).
    apply unique_keys_cons in Hrest as (Hk2 & Ht & Hv2). cbn in Hk1.
    apply not_elem_of_cons in Hk1 as [Hne Hk1].
    apply unique_keys_build; [|apply unique_keys_build; auto|auto].
    cbn. apply not_elem_of_cons. by split.
  - auto.
Qed.

(** A pass over the entries of a table that stops at the first error: what
    the order of the entries cannot change when the pass succeeds. *)
Section table_pass.
Context {S : Type}.
Context (step : string → Toml.value → S → S * option error).
Context (run : list (string * Toml.value) → S → S * option error).
Hypothesis run_cons : ∀ key v t x y,
  run ((key, v) :: t) x = (y, None)
  ↔ ∃ x1, step key v x = (x1, None) ∧ run t x1 = (y, None).
Hypothesis step_commute : ∀ k1 v1 k2 v2 x x1 x2,
  k1 ≠ k2 → step k1 v1 x = (x1, None) → step k2 v2 x1 = (x2, None) →
  ∃ x1', step k2 v2 x = (x1', None) ∧ step k1 v1 x1' = (x2, None).

Lemma transfers_entry key v t t' :
  transfers run t t' → transfers run ((key, v) :: t) ((key, v) :: t').
Proof.
  intros Ht x y. unfold transfers in *. rewrite !run_cons. intros (x1 & Hstep & Hrun). eauto.
Qed.

Lemma transfers_sub key v v' t t' :
  (∀ x x1, step key v x = (x1, None) → step key v' x = (x1, None)) →
  transfers run t t' → transfers run ((key, v) :: t) ((key, v') :: t').
Proof.
  intros Hv Ht x y. unfold transfers in *. rewrite !run_cons. intros (x1 & Hstep & Hrun). eauto.
Qed.

Lemma transfers_swap k1 v1 k2 v2 t :
  k1 ≠ k2 → transfers run ((k1, v1) :: (k2, v2) :: t) ((k2, v2) :: (k1, v1) :: t).
Proof.
  intros Hne x y. rewrite !run_cons. intros (x1 & Hstep1 & Hrest).
  apply run_cons in Hrest as (x2 & Hstep2 & Hrun).
  destruct (step_commute k1 v1 k2 v2 x x1 x2 Hne Hstep1 Hstep2)
    as (x1' & Hstep2' & Hstep1').
  exists x1'. split; [done|]. apply run_cons. eauto.
Qed.

End table_pass.

Lemma same_table_sym (t t' : list (string * Toml.value)) :
  same_table t t' → same_table t' t.
Proof.
  induction 1; eauto using same_table.
Qed.

(** *** The four passes of the decoder *)

Lemma unify_headers_cons key v t m y :
  unify_headers ((key, v) :: t) m = (y, None)
  ↔ ∃ m1, unify_headers_entry key v m = (m1, None) ∧ unify_headers t m1 = (y, None).
Proof.
  destruct v; cbn; split; try (by intros [=]); try (by intros (m1 & [=] & _)).
  - eauto.
  - by intros (m1 & [= <-] & Hrun).
Qed.

Lemma unify_headers_entry_commute k1 v1 k2 v2 (x x1 x2 : gmap string string) :
  k1 ≠ k2 →
  unify_headers_entry k1 v1 x = (x1, None) →
  unify_headers_entry k2 v2 x1 = (x2, None) →
  ∃ x1', unify_headers_entry k2 v2 x = (x1', None)
         ∧ unify_headers_entry k1 v1 x1' = (x2, None).
Proof.
  intros Hne. destruct v1; try (by intros [=]). destruct v2; try (by intros _ [=]).
  cbn. intros [= <-] [= <-]. eexists. split; [done|].
  by rewrite insert_insert_ne.
Qed.

Lemma unify_BackendConfig_cons key v t b y :
  unify_BackendConfig ((key, v) :: t) b = (y, None)
  ↔ ∃ b1, unify_BackendConfig_entry key v b = (b1, None)
          ∧ unify_BackendConfig t b1 = (y, None).
Proof.
  cbn [unify_BackendConfig].
  destruct (unify_BackendConfig_entry key v b) as [b1 [e|]]; split.
  - by intros [=].
  - by intros (b2 & [=] & _).
  - eauto.
  - by intros (b2 & [= <-] & Hrun).
Qed.

Lemma unify_Backends_cons name v t m y :
  unify_Backends ((name, v) :: t) m = (y, None)
  ↔ ∃ m1, unify_Backends_entry name v m = (m1, None)
          ∧ unify_Backends t m1 = (y, None).
Proof.
  unfold unify_Backends_entry.
  destruct v as [s|n|b|vs|section]; cbn [unify_Backends];
    try (split; [by intros [=]|by intros (m1 & [=] & _)]).
  destruct (unify_BackendConfig section BackendConfig_zero) as [b [e|]]; split.
  - by intros [=].
  - by intros (m1 & [=] & _).
  - eauto.
  - by intros (m1 & [= <-] & Hrun).
Qed.

Lemma unify_Backends_entry_commute k1 v1 k2 v2 (x x1 x2 : gmap string BackendConfig) :
  k1 ≠ k2 →
  unify_Backends_entry k1 v1 x = (x1, None) →
  unify_Backends_entry k2 v2 x1 = (x2, None) →
  ∃ x1', unify_Backends_entry k2 v2 x = (x1', None)
         ∧ unify_Backends_entry k1 v1 x1' = (x2, None).
Proof.
  intros Hne. unfold unify_Backends_entry.
  destruct v1 as [| | | |s1]; try (by intros [=]).
  destruct v2 as [| | | |s2]; try (by intros _ [=]).
  destruct (unify_BackendConfig s1 BackendConfig_zero) as [b1 [e1|]];
    [by intros [=]|].
  destruct (unify_BackendConfig s2 BackendConfig_zero) as [b2 [e2|]];
    [by intros _ [=]|].
  intros [= <-] [= <-]. eexists. split; [done|].
  by rewrite insert_insert_ne.
Qed.

Lemma Decode_cons key v doc conf y :
  Decode ((key, v) :: doc) conf = (y, None)
  ↔ ∃ c1, unify_Config_entry key v conf = (c1, None) ∧ Decode doc c1 = (y, None).
Proof.
  cbn [Decode].
  destruct (unify_Config_entry key v conf) as [c1 [e|]]; split.
  - by intros [=].
  - by intros (c2 & [=] & _).
  - eauto.
  - by intros (c2 & [= <-] & Hrun).
Qed.

(** An entry of a section that decodes does one of three things. *)
Lemma unify_BackendConfig_entry_string f s b :
  f ≠ FExtraHeaders →
  unify_BackendConfig_entry (field_tag f) (Toml.VString s) b
  = (set_string_field f s b, None).
Proof. by destruct f. Qed.

Lemma unify_BackendConfig_entry_headers t m b :
  unify_headers t (ExtraHeaders b) = (m, None) →
  unify_BackendConfig_entry "extra_headers" (Toml.VTable t) b
  = (set_ExtraHeaders m b, None).
Proof.
  intros Hm. unfold unify_BackendConfig_entry.
  change (bool_decide ("extra_headers"%string = "type"%string)) with false.
  change (bool_decide ("extra_headers"%string = "aws_profile"%string)) with false.
  change (bool_decide ("extra_headers"%string = "aws_region"%string)) with false.
  change (bool_decide ("extra_headers"%string = "api_key"%string)) with false.
  change (bool_decide ("extra_headers"%string = "api_version"%string)) with false.
  change (bool_decide ("extra_headers"%string = "url"%string)) with false.
  change (bool_decide ("extra_headers"%string = "default_model"%string)) with false.
  change (bool_decide ("extra_headers"%string = "extra_headers"%string)) with true.
  cbv iota. by rewrite Hm.
Qed.

Lemma unify_BackendConfig_entry_unknown key v b :
  (∀ f, key ≠ field_tag f) → unify_BackendConfig_entry key v b = (b, None).
Proof.
  intros Hkey. unfold unify_BackendConfig_entry.
  rewrite (bool_decide_eq_false_2 _ (Hkey FType)).
  rewrite (bool_decide_eq_false_2 _ (Hkey FAWSProfile)).
  rewrite (bool_decide_eq_false_2 _ (Hkey FAWSRegion)).
  rewrite (bool_decide_eq_false_2 _ (Hkey FAPIKey)).
  rewrite (bool_decide_eq_false_2 _ (Hkey FAPIVersion)).
  rewrite (bool_decide_eq_false_2 _ (Hkey FURL)).
  rewrite (bool_decide_eq_false_2 _ (Hkey FDefaultModel)).
  by rewrite (bool_decide_eq_false_2 _ (Hkey FExtraHeaders)).
Qed.

Lemma unify_BackendConfig_entry_success key v b b1 :
  unify_BackendConfig_entry key v b = (b1, None) →
  (∃ f s, f ≠ FExtraHeaders ∧ key = field_tag f ∧ v = Toml.VString s
          ∧ b1 = set_string_field f s b)
  ∨ (∃ t m, key = "extra_headers"%string ∧ v = Toml.VTable t
            ∧ unify_headers t (ExtraHeaders b) = (m, None)
            ∧ b1 = set_ExtraHeaders m b)
  ∨ ((∀ f, key ≠ field_tag f) ∧ b1 = b).
Proof.
  unfold unify_BackendConfig_entry, assign_string.
  case_bool_decide as H1;
    [subst; destruct v; intros [= <-]; left; by exists FType, s|].
  case_bool_decide as H2;
    [subst; destruct v; intros [= <-]; left; by exists FAWSProfile, s|].
  case_bool_decide as H3;
    [subst; destruct v; intros [= <-]; left; by exists FAWSRegion, s|].
  case_bool_decide as H4;
    [subst; destruct v; intros [= <-]; left; by exists FAPIKey, s|].
  case_bool_decide as H5;
    [subst; destruct v; intros [= <-]; left; by exists FAPIVersion, s|].
  case_bool_decide as H6;
    [subst; destruct v; intros [= <-]; left; by exists FURL, s|].
  case_bool_decide as H7;
    [subst; destruct v; intros [= <-]; left; by exists FDefaultModel, s|].
  case_bool_decide as H8.
  - subst. destruct v as [| | | |t]; try (by intros [=]).
    destruct (unify_headers t (ExtraHeaders b)) as [m [e|]] eqn:Hm;
      [by intros [=]|].
    intros [= <-]. right. left. by exists t, m.
  - intros [= <-]. right. right. split; [|done]. by intros [].
Qed.

Lemma set_string_field_commute f1 f2 s1 s2 b :
  f1 ≠ f2 →
  set_string_field f1 s1 (set_string_field f2 s2 b)
  = set_string_field f2 s2 (set_string_field f1 s1 b).
Proof. by destruct f1, f2. Qed.

Lemma set_string_field_headers f s m b :
  ExtraHeaders (set_string_field f s b) = ExtraHeaders b
  ∧ set_string_field f s (set_ExtraHeaders m b)
    = set_ExtraHeaders m (set_string_field f s b).
Proof. by destruct f. Qed.

Lemma unify_BackendConfig_entry_commute k1 v1 k2 v2 (x x1 x2 : BackendConfig) :
  k1 ≠ k2 →
  unify_BackendConfig_entry k1 v1 x = (x1, None) →
  unify_BackendConfig_entry k2 v2 x1 = (x2, None) →
  ∃ x1', unify_BackendConfig_entry k2 v2 x = (x1', None)
         ∧ unify_BackendConfig_entry k1 v1 x1' = (x2, None).
Proof.
  intros Hne H1 H2.
  apply unify_BackendConfig_entry_success in H1
    as [(f1 & s1 & Hf1 & -> & -> & ->)|[(t1 & m1 & -> & -> & Hm1 & ->)|[Hk1 ->]]];
  apply unify_BackendConfig_entry_success in H2
    as [(f2 & s2 & Hf2 & -> & -> & ->)|[(t2 & m2 & -> & -> & Hm2 & ->)|[Hk2 ->]]].
  - exists (set_string_field f2 s2 x).
    rewrite !unify_BackendConfig_entry_string by done. split; [done|].
    rewrite set_string_field_commute; [done|]. by intros ->.
  - rewrite (proj1 (set_string_field_headers f1 s1 m2 x)) in Hm2.
    exists (set_ExtraHeaders m2 x).
    rewrite (unify_BackendConfig_entry_headers t2 m2 x Hm2),
      unify_BackendConfig_entry_string by done.
    split; [done|]. by rewrite (proj2 (set_string_field_headers f1 s1 m2 x)).
  - exists x. rewrite unify_BackendConfig_entry_unknown by done.
    by rewrite unify_BackendConfig_entry_string.
  - exists (set_string_field f2 s2 x).
    rewrite unify_BackendConfig_entry_string by done. split; [done|].
    rewrite (unify_BackendConfig_entry_headers t1 m1); [|
      by rewrite (proj1 (set_string_field_headers f2 s2 m1 x))].
    by rewrite (proj2 (set_string_field_headers f2 s2 m1 x)).
  - done.
  - exists x. rewrite unify_BackendConfig_entry_unknown by done.
    by rewrite (unify_BackendConfig_entry_headers t1 m1 x Hm1).
  - exists (set_string_field f2 s2 x).
    rewrite unify_BackendConfig_entry_string by done.
    by rewrite unify_BackendConfig_entry_unknown.
  - exists (set_ExtraHeaders m2 x).
    rewrite (unify_BackendConfig_entry_headers t2 m2 x Hm2).
    by rewrite unify_BackendConfig_entry_unknown.
  - exists x. by rewrite !unify_BackendConfig_entry_unknown.
Qed.

Lemma unify_Config_entry_success key v conf c1 :
  unify_Config_entry key v conf = (c1, None) →
  (∃ t m, key = "backends"%string ∧ v = Toml.VTable t
          ∧ unify_Backends t (Backends conf) = (m, None)
          ∧ c1 = set_Backends m conf)
  ∨ (∃ s, key = "default_backend"%string ∧ v = Toml.VString s
          ∧ c1 = set_DefaultBackend s conf)
  ∨ (key ≠ "backends"%string ∧ key ≠ "default_backend"%string ∧ c1 = conf).
Proof.
  unfold unify_Config_entry, assign_string.
  case_bool_decide as H1.
  - subst. destruct v as [| | | |t]; try (by intros [=]).
    destruct (unify_Backends t (Backends conf)) as [m [e|]] eqn:Hm;
      [by intros [=]|].
    intros [= <-]. left. by exists t, m.
  - case_bool_decide as H2.
    + subst. destruct v; intros [= <-]. right. left. by eexists.
    + intros [= <-]. by right; right.
Qed.

Lemma unify_Config_entry_backends t m conf :
  unify_Backends t (Backends conf) = (m, None) →
  unify_Config_entry "backends" (Toml.VTable t) conf = (set_Backends m conf, None).
Proof. intros Hm. unfold unify_Config_entry. cbn. by rewrite Hm. Qed.

Lemma unify_Config_entry_unknown key v conf :
  key ≠ "backends"%string → key ≠ "default_backend"%string →
  unify_Config_entry key v conf = (conf, None).
Proof.
  intros H1 H2. unfold unify_Config_entry.
  by rewrite !bool_decide_eq_false_2.
Qed.

Lemma unify_Config_entry_commute k1 v1 k2 v2 (x x1 x2 : Config) :
  k1 ≠ k2 →
  unify_Config_entry k1 v1 x = (x1, None) →
  unify_Config_entry k2 v2 x1 = (x2, None) →
  ∃ x1', unify_Config_entry k2 v2 x = (x1', None)
         ∧ unify_Config_entry k1 v1 x1' = (x2, None).
Proof.
  intros Hne H1 H2.
  apply unify_Config_entry_success in H1
    as [(t1 & m1 & -> & -> & Hm1 & ->)|[(s1 & -> & -> & ->)|(Ha1 & Hb1 & ->)]];
  apply unify_Config_entry_success in H2
    as [(t2 & m2 & -> & -> & Hm2 & ->)|[(s2 & -> & -> & ->)|(Ha2 & Hb2 & ->)]];
    try done.
  - exists (set_DefaultBackend s2 x). split; [done|].
    by rewrite (unify_Config_entry_backends t1 m1).
  - exists x. rewrite unify_Config_entry_unknown by done.
    by rewrite (unify_Config_entry_backends t1 m1).
  - exists (set_Backends m2 x).
    by rewrite (unify_Config_entry_backends t2 m2).
  - exists x. by rewrite unify_Config_entry_unknown.
  - exists (set_Backends m2 x).
    rewrite (unify_Config_entry_backends t2 m2) by done.
    by rewrite unify_Config_entry_unknown.
  - exists (set_DefaultBackend s2 x). split; [done|].
    by rewrite unify_Config_entry_unknown.
  - exists x. by rewrite !unify_Config_entry_unknown.
Qed.

(** A table inside an entry, visited in another order. *)
Lemma unify_BackendConfig_entry_sub key sub sub' b b1 :
  transfers unify_headers sub sub' →
  unify_BackendConfig_entry key (Toml.VTable sub) b = (b1, None) →
  unify_BackendConfig_entry key (Toml.VTable sub') b = (b1, None).
Proof.
  intros Hsub H.
  apply unify_BackendConfig_entry_success in H
    as [(f & s & _ & _ & [=] & _)|[(t & m & -> & [= <-] & Hm & ->)|[Hkey ->]]].
  - by apply unify_BackendConfig_entry_headers, Hsub.
  - by apply unify_BackendConfig_entry_unknown.
Qed.

Lemma unify_Backends_entry_sub name sub sub' m m1 :
  transfers unify_BackendConfig sub sub' →
  unify_Backends_entry name (Toml.VTable sub) m = (m1, None) →
  unify_Backends_entry name (Toml.VTable sub') m = (m1, None).
Proof.
  intros Hsub. unfold unify_Backends_entry.
  destruct (unify_BackendConfig sub BackendConfig_zero) as [b [e|]] eqn:Hb;
    [by intros [=]|].
  intros [= <-]. by rewrite (Hsub _ _ Hb).
Qed.

Lemma unify_Config_entry_sub key sub sub' conf c1 :
  transfers unify_Backends sub sub' →
  unify_Config_entry key (Toml.VTable sub) conf = (c1, None) →
  unify_Config_entry key (Toml.VTable sub') conf = (c1, None).
Proof.
  intros Hsub H.
  apply unify_Config_entry_success in H
    as [(t & m & -> & [= <-] & Hm & ->)|[(s & _ & [=] & _)|(Ha & Hb & ->)]].
  - by apply unify_Config_entry_backends, Hsub.
  - by apply unify_Config_entry_unknown.
Qed.

(** Whatever order the decoder visits the entries in, at every level, a
    document with unique keys that decodes gives the same result. *)
Lemma same_table_transfers (t t' : list (string * Toml.value)) :
  same_table t t' → unique_keys t →
  transfers unify_headers t t' ∧ transfers unify_BackendConfig t t'
  ∧ transfers unify_Backends t t' ∧ transfers Decode t t'.
Proof.
  induction 1 as [|key v t t' Hsame IH|key sub sub' t t' Hsub IHsub Hsame IH
                 |[k1 v1] [k2 v2] t|t1 t2 t3 H12 IH1 H23 IH2]; intros Hunique.
  - split_and!; by intros x y.
  - apply unique_keys_cons in Hunique as (_ & Ht & _).
    destruct (IH Ht) as (IHh & IHb & IHbs & IHd). split_and!.
    + exact (transfers_entry _ _ unify_headers_cons key v t t' IHh).
    + exact (transfers_entry _ _ unify_BackendConfig_cons key v t t' IHb).
    + exact (transfers_entry _ _ unify_Backends_cons key v t t' IHbs).
    + exact (transfers_entry _ _ Decode_cons key v t t' IHd).
  - apply unique_keys_cons in Hunique as (_ & Ht & Hv).
    destruct (IH Ht) as (IHh & IHb & IHbs & IHd).
    destruct (IHsub (Hv sub eq_refl)) as (Sh & Sb & Sbs & _). split_and!.
    + apply (transfers_sub _ _ unify_headers_cons); [|done].
      by intros x x1 [=].
    + apply (transfers_sub _ _ unify_BackendConfig_cons); [|done].
      intros x x1. by apply unify_BackendConfig_entry_sub.
    + apply (transfers_sub _ _ unify_Backends_cons); [|done].
      intros x x1. by apply unify_Backends_entry_sub.
    + apply (transfers_sub _ _ Decode_cons); [|done].
      intros x x1. by apply unify_Config_entry_sub.
  - apply unique_keys_cons in Hunique as (Hk1 & _ & _). cbn in Hk1.
    apply not_elem_of_cons in Hk1 as [Hne _]. split_and!.
    + exact (transfers_swap _ _ unify_headers_cons
               unify_headers_entry_commute k1 v1 k2 v2 t Hne).
    + exact (transfers_swap _ _ unify_BackendConfig_cons
               unify_BackendConfig_entry_commute k1 v1 k2 v2 t Hne).
    + exact (transfers_swap _ _ unify_Backends_cons
               unify_Backends_entry_commute k1 v1 k2 v2 t Hne).
    + exact (transfers_swap _ _ Decode_cons
               unify_Config_entry_commute k1 v1 k2 v2 t Hne).
  - destruct (IH1 Hunique) as (Ah & Ab & Abs & Ad).
    destruct (IH2 (same_table_unique _ _ H12 Hunique)) as (Bh & Bb & Bbs & Bd).
    unfold transfers in *. split_and!; eauto.
Qed.

Lemma Decode_same_document (doc doc' : list (string * Toml.value)) (conf : Config) :
  same_table doc doc' → unique_keys doc →
  (∀ c, Decode doc conf = (c, None) → Decode doc' conf = (c, None))
  ∧ (is_Some (Decode doc conf).2 → is_Some (Decode doc' conf).2).
Proof.
  intros Hsame Hunique.
  destruct (same_table_transfers doc doc' Hsame Hunique) as (_ & _ & _ & Hd).
  split; [by apply Hd|].
  destruct (Decode doc' conf) as [c' [e'|]] eqn:Hdoc'; [by eauto|].
  destruct (same_table_transfers doc' doc (same_table_sym _ _ Hsame)
              (same_table_unique _ _ Hsame Hunique)) as (_ & _ & _ & Hd').
  rewrite (Hd' _ _ Hdoc'). by intros [??].
Qed.

Lemma decode_file_same (w1 w2 : World) (p : string) :
  same_file (files w1 !! p) (files w2 !! p) →
  (∀ c, decode_file w1 p = (c, None) → decode_file w2 p = (c, None))
  ∧ (is_Some (decode_file w1 p).2 → is_Some (decode_file w2 p).2).
Proof.
  unfold same_file, decode_file, DecodeFile, io_call. cbn [fst].
  destruct (files w1 !! p) as [[e1|doc1]|], (files w2 !! p) as [[e2|doc2]|];
    try done;
    try (intros [Hunique Hsame]; by apply Decode_same_document);
    intros _; (split; [by intros c [=]|by eauto]).
Qed.

Lemma error_kind_resolve (e : error) :
  error_kind (Errorf_w "failed getting default config path" e)
  = Some PathResolutionFailure.
Proof. unfold error_kind. by rewrite Error_Errorf_w, prefix_append. Qed.

Lemma error_kind_decode (e : error) :
  error_kind (Errorf_w "failed loading configuration" e) = Some DecodeFailure.
Proof.
  unfold error_kind. rewrite Error_Errorf_w.
  replace (String.prefix "failed getting default config path: "
             (("failed loading configuration" +:+ ": ") +:+ Error e))
    with false by reflexivity.
  by rewrite prefix_append.
Qed.

(** Two invocations that get the same answer from the resolver and find the
    same file make the same calls and fail alike, whatever the environment
    of each. *)
Lemma LoadConfig_same_failure (R1 R2 : MapRange) (w1 w2 : World) (path : string) :
  resolve w1 path = resolve w2 path →
  same_file (files w1 !! (resolve w1 path).1) (files w2 !! (resolve w1 path).1) →
  @calls R1 w1 path = @calls R2 w2 path
  ∧ same_failure (@outcome R1 w1 path).2 (@outcome R2 w2 path).2
  ∧ (∀ c1 c2, @outcome R1 w1 path = (c1, None) → @outcome R2 w2 path = (c2, None) →
       ∃ c, decode_file w1 (resolve w1 path).1 = (c, None)
            ∧ c1 = @replaceEnvVars R1 (environ w1) c
            ∧ c2 = @replaceEnvVars R2 (environ w2) c).
Proof.
  intros Hresolve Hfile. unfold calls, outcome.
  rewrite !LoadConfig_pipeline. cbv zeta. rewrite <-Hresolve.
  destruct (resolve w1 path) as [p [e|]].
  { split_and!; [done| |by intros c1 c2 [=]].
    exists PathResolutionFailure. by rewrite error_kind_resolve. }
  cbn [fst] in *. destruct (decode_file_same w1 w2 p Hfile) as [Hok Hfail].
  destruct (decode_file w1 p) as [c [e|]].
  - destruct (decode_file w2 p) as [c' [e'|]];
      [|by destruct (Hfail ltac:(by eexists))].
    split_and!; [done| |by intros c1 c2 [=]].
    exists DecodeFailure. by rewrite !error_kind_decode.
  - rewrite (Hok c eq_refl). split_and!; [done..|].
    intros c1 c2 [= <-] [= <-]. by exists c.
Qed.

(** C10: two invocations of [LoadConfig] with the same explicit path, the
    same answer of the resolver where it is consulted, the same file at the
    resolved path and the same environment return equal results: the same
    [Config] when they succeed, an error of the same kind when they fail,
    after the same calls.  This holds in whatever order the decoder of each
    invocation visits the entries of the document and the pass of each
    iterates over [Backends]. *)
Theorem C10_LoadConfig_deterministic (R1 R2 : MapRange) (w1 w2 : World)
    (path : string) :
  resolve w1 path = resolve w2 path →
  same_file (files w1 !! (resolve w1 path).1) (files w2 !! (resolve w1 path).1) →
  environ w1 = environ w2 →
  @calls R1 w1 path = @calls R2 w2 path
  ∧ same_outcome (@outcome R1 w1 path) (@outcome R2 w2 path).
Proof.
  intros Hresolve Hfile Henv.
  destruct (LoadConfig_same_failure R1 R2 w1 w2 path Hresolve Hfile)
    as (Hcalls & Hfailure & Hsuccess).
  split; [done|]. unfold same_outcome, same_failure in *.
  destruct (@outcome R1 w1 path) as [c1 [e1|]], (@outcome R2 w2 path) as [c2 [e2|]];
    cbn [fst snd] in *; try done.
  destruct (Hsuccess c1 c2 eq_refl eq_refl) as (c & _ & -> & ->).
  by rewrite Henv, (replaceEnvVars_fmap _ (R := R1)), (replaceEnvVars_fmap _ (R := R2)).
Qed.

Lemma C10_witness :
  @calls range_forward openai_world "/etc/aiac.toml"
  = @calls range_backward reordered_world "/etc/aiac.toml"
  ∧ same_outcome (@outcome range_forward openai_world "/etc/aiac.toml")
      (@outcome range_backward reordered_world "/etc/aiac.toml").
Proof.
  apply C10_LoadConfig_deterministic.
  - reflexivity.
  - split.
    + repeat (apply unique_table || apply unique_other || apply unique_nil);
        (compute_done || discriminate).
    + apply same_sub; [|apply same_nil].
      apply same_sub; [|apply same_nil]. apply same_swap.
  - reflexivity.
Defined.



(* ------------------------------------------------------------------ *)
(** ** References to special variables *)
(* ------------------------------------------------------------------ *)

Lemma head_app_not_alnum (l t : bytes) :
  from_option isAlphaNum false (head l) = false →
  from_option isAlphaNum false (head t) = false →
  from_option isAlphaNum false (head (l ++ t)) = false.
Proof. by destruct l. Qed.

(** Text and references, followed by anything that does not go on a last
    [$name]: the tokens are expanded, then what follows is. *)
Lemma expand_bytes_tokens_app (mapping : string → string)
    (toks : list token) (t : bytes) :
  wf_tokens toks = true →
  from_option isAlphaNum false (head t) = false →
  expand_bytes mapping (render_all toks ++ t)
  = eval_all mapping toks ++ expand_bytes mapping t.
Proof.
  intros Hwf Ht. induction toks as [|tok toks IH]; [done|].
  rewrite render_all_cons, eval_all_cons, <-!(assoc_L (++)).
  cbn [wf_tokens] in Hwf.
  apply andb_true_iff in Hwf as [Hwf Htoks].
  apply andb_true_iff in Hwf as [Htok Hnext]. specialize (IH Htoks).
  destruct tok as [text|name|name]; cbn [render eval_token wf_token] in *.
  - apply bool_decide_eq_true in Htok.
    by rewrite expand_bytes_text, IH.
  - destruct (of_string name) as [|c n'] eqn:Hname; [done|].
    apply andb_true_iff in Htok as [Hspecial Hn].
    apply negb_true_iff in Hspecial, Hnext.
    cbn [app]. rewrite expand_bytes_dollar by done. unfold expand_ref.
    change (c :: n' ++ ?r) with ((c :: n') ++ r).
    rewrite (getShellName_plain (c :: n') _ c n')
      by (done || by apply head_app_not_alnum).
    rewrite bool_decide_eq_false_2 by done. cbn [andb fst snd].
    rewrite drop_app_length, IH, <-Hname. by rewrite to_of_string.
  - apply andb_true_iff in Htok as [Hne Hn].
    apply bool_decide_eq_true in Hne, Hn.
    cbn [app]. rewrite expand_bytes_dollar by done. unfold expand_ref.
    rewrite <-(assoc_L (++)). cbn [app].
    rewrite getShellName_braced by done.
    rewrite bool_decide_eq_false_2 by done. cbn [andb fst snd].
    replace (length (of_string name) + 2) with (S (length (of_string name) + 1)) by lia.
    cbn [drop]. rewrite <-drop_drop, drop_app_length. cbn [drop].
    by rewrite drop_0, IH, to_of_string.
Qed.

(** X1: a dollar sign that stands after dollar-free text and complete
    [$name] and [${name}] references, and is followed by a digit or by one
    of [*#$@!?-], is a reference to the variable named by that single byte,
    whatever comes next: the reference is replaced by the variable's value
    and expansion goes on after the byte. *)
Theorem replaceEnvVar_special_variable (env : gmap string string)
    (toks : list token) (c : ascii) (rest : string) :
  wf_tokens toks = true →
  isShellSpecialVar c = true →
  replaceEnvVar env (to_string (render_all toks) +:+ String "$" (String c rest))
  = to_string (eval_all (Getenv env) toks)
    +:+ Getenv env (String c "") +:+ replaceEnvVar env rest.
Proof.
  intros Hwf Hspecial. unfold replaceEnvVar, ExpandEnv. rewrite !Expand_bytes.
  rewrite of_string_app, of_to_string.
  change (of_string (String "$" (String c rest)))
    with ("$"%char :: c :: of_string rest).
  rewrite expand_bytes_tokens_app by done.
  rewrite expand_bytes_dollar by done. unfold expand_ref.
  rewrite getShellName_special by done. cbn [fst snd drop].
  rewrite bool_decide_eq_false_2 by done. cbn [andb].
  by rewrite !to_string_app, to_of_string.
Qed.

Lemma replaceEnvVar_special_variable_witness :
  replaceEnvVar {[ "$"%string := "4242"%string ]} "pa$$word" = "pa4242word"%string
  ∧ replaceEnvVar {[ "A"%string := "x"%string ]} "${A}-$A$1abc" = "x-xabc"%string.
Proof.
  split.
  - exact (replaceEnvVar_special_variable {[ "$"%string := "4242"%string ]}
             [Lit "pa"] "$" "word" eq_refl eq_refl).
  - exact (replaceEnvVar_special_variable {[ "A"%string := "x"%string ]}
             [Braced "A"; Lit "-"; Plain "A"] "1" "abc" eq_refl eq_refl).
Defined.

(** A dollar sign that was read as the name of a reference begins nothing:
    in ["$$1"] the variable [$] is referred to, and ["1"] is text. *)
Example replaceEnvVar_consumed_dollar :
  replaceEnvVar {[ "$"%string := "D"%string; "1"%string := "one"%string ]} "$$1"
  = "D1"%string.
Proof. by vm_compute. Qed.
